(** * stack_pool: many singly-linked stacks threaded through one vector

    A shallow embedding of [stack_pool.hpp].  The class template
    [stack_pool<T, N>] is taken at its default handle type
    [N = std::size_t]: handles and vector sizes are the same 64-bit
    unsigned type, so [return pool.size()] converts nothing.  The one
    place where a narrower handle type changes what a member function
    returns, the conversion of [pool.size()] in [_push], is written out
    in [_push_at].  The value type [T] stays abstract.

    Layout of the development:
    Definitions:
    - outcomes of a member function and the state/error monad over them;
    - [std::vector] with its size, capacity and unchecked [operator[]];
    - the members of [stack_pool] and of [_iterator];
    - client programs: runs of pushes, a client keeping its stack heads
      in variables, a client using any handle it was ever given,
      iterators over several pools;
    - the representation predicate [chain] and the pool invariant [wf].

    Properties:
    - the member functions as equations on the node storage;
    - frame lemmas for chains, and push, pop, free_stack on chains;
    - the invariant is kept by every operation of the client;
    - the theorems on push/pop round trips, iteration order, reuse of
      freed nodes, free_stack, failed checks and iterators;
    - the theorems instantiated on concrete pools. *)

From stdpp Require Import base numbers list strings gmap.

Set Default Proof Using "Type".
Local Open Scope N_scope.

(** ** Outcomes *)

(** What running a member function on a pool state [S] can lead to. *)
Inductive outcome (S A : Type) : Type :=
| Done (a : A) (s : S)          (* normal return, with the state left behind *)
| Failed (msg : string) (s : S) (* an AP_ERROR check failed in state [s],
                                   or the vector threw std::length_error *)
| Undefined                     (* out-of-bounds access to the vector *)
| OutOfFuel.                    (* a loop was cut by the model's fuel *)

Arguments Done {S A} a s.
Arguments Failed {S A} msg s.
Arguments Undefined {S A}.
Arguments OutOfFuel {S A}.

Definition M (S A : Type) : Type := S → outcome S A.

Global Instance M_ret {S} : MRet (M S) := λ A a s, Done a s.

Global Instance M_bind {S} : MBind (M S) := λ A B k m s,
  match m s with
  | Done a s' => k a s'
  | Failed msg s' => Failed msg s'
  | Undefined => Undefined
  | OutOfFuel => OutOfFuel
  end.

Definition out_of_fuel {S A} : M S A := λ _, OutOfFuel.

(** The messages a run reported through the diagnostic facility. *)
Definition diagnostics {S A} (o : outcome S A) : list string :=
  match o with
  | Failed msg _ => [msg]
  | _ => []
  end.

(** ** std::vector *)

(** A vector is its elements and its allocated capacity.  How much the
    capacity grows on reallocation is implementation-defined; the policy
    (old capacity to new capacity) is carried along as [growth].
    Allocation is assumed to succeed. *)
Record vector (A : Type) : Type := mk_vector {
  elems : list A;
  cap : N;
  growth : N → N
}.
Arguments mk_vector {A} elems cap growth.
Arguments elems {A} v.
Arguments cap {A} v.
Arguments growth {A} v.

Definition vec_empty {A} (g : N → N) : vector A := mk_vector [] 0 g.

Definition vec_size {A} (v : vector A) : N := N.of_nat (length (elems v)).

Definition vec_capacity {A} (v : vector A) : N := cap v.

(** [v.reserve(n)] when it returns.  The new capacity is exactly [n],
    as in libstdc++; the standard only asks for at least [n]. *)
Definition vec_reserve {A} (n : N) (v : vector A) : vector A :=
  if cap v <? n then mk_vector (elems v) n (growth v) else v.

(** [v.reserve(n)] with the length check of the vector: a request beyond
    [max_size()] throws [std::length_error] ([None]) and leaves the vector
    as it is.  [max_size()] is implementation-defined and is a parameter
    here. *)
Definition vec_reserve_checked {A} (max_size n : N) (v : vector A)
    : option (vector A) :=
  if max_size <? n then None else Some (vec_reserve n v).

Definition vec_push_back {A} (x : A) (v : vector A) : vector A :=
  mk_vector (elems v ++ [x])
            (if vec_size v <? cap v then cap v else growth v (cap v))
            (growth v).

(** [v[i]]: unchecked, so an index past the size is undefined behaviour
    ([None]). *)
Definition vec_at {A} (v : vector A) (i : N) : option A :=
  if i <? vec_size v then elems v !! N.to_nat i else None.

(** [v[i] = x] *)
Definition vec_set {A} (v : vector A) (i : N) (x : A) : option (vector A) :=
  if i <? vec_size v
  then Some (mk_vector (<[N.to_nat i := x]> (elems v)) (cap v) (growth v))
  else None.

(** ** Handles *)

(** [stack_type], the default [std::size_t]. *)
Definition stack_type : Type := N.
Definition size_type : Type := N.

Definition SIZE_MAX : N := 2 ^ 64 - 1.

(** [x - 1] on [std::size_t]: zero wraps around to [SIZE_MAX]. *)
Definition pred_wrap (x : stack_type) : size_type :=
  if decide (x = 0) then SIZE_MAX else x - 1.

(** Addresses of pool objects, for the [stack_pool*] an iterator keeps. *)
Definition addr : Type := nat.

Section stack_pool.
Context {T : Type}.

(** ** The class stack_pool *)

(** The fields [value] and [next] of a node are [node_value] and
    [node_next] here, since [value] and [next] are also the names of
    member functions of the pool. *)
Record node_t : Type := mk_node {
  node_value : T;
  node_next : stack_type
}.

Record stack_pool : Type := mk_pool {
  pool : vector node_t;
  free_nodes : stack_type
}.

Local Abbreviation Pool := (M stack_pool).

(** Modelled from the spec: the macro [AP_ERROR] of [ap_error.hpp], which
    is not part of the sources.  It evaluates the condition; when the
    condition is false it reports the message and diverts control flow, so
    that the calling operation does not continue. *)
Definition AP_ERROR (cond : bool) (msg : string) : Pool unit :=
  fun p => if cond then Done tt p else Failed msg p.

Definition newline : string := String (Ascii.ascii_of_nat 10) EmptyString.

(** [node(x)] is [pool[x - 1]]; the first function reads through the
    reference, the second assigns through it. *)
Definition node (x : stack_type) : Pool node_t :=
  fun p =>
    match vec_at (pool p) (pred_wrap x) with
    | Some n => Done n p
    | None => Undefined
    end.

Definition set_node (x : stack_type) (n : node_t) : Pool unit :=
  fun p =>
    match vec_set (pool p) (pred_wrap x) n with
    | Some v => Done tt (mk_pool v (free_nodes p))
    | None => Undefined
    end.

Definition end_ : stack_type := 0.

Definition new_stack : stack_type := end_.

Definition empty (x : stack_type) : bool := bool_decide (x = end_).

(** [reserve(n)] where [pool.reserve(n)] returns, that is for [n] within
    the [max_size()] of the vector; [reserve_checked] below adds the
    exception beyond it. *)
Definition reserve (n : size_type) : Pool unit :=
  fun p => Done tt (mk_pool (vec_reserve n (pool p)) (free_nodes p)).

Definition capacity (p : stack_pool) : size_type := vec_capacity (pool p).

(** The pool [stack_pool(n)] constructs, with a vector of growth policy
    [g], when its [reserve(n)] returns; the default constructor is
    [stack_pool_ctor g 0].  [construct] below is the constructor with the
    exception of [reserve]. *)
Definition stack_pool_ctor (g : N → N) (n : size_type) : stack_pool :=
  mk_pool (vec_reserve n (vec_empty g)) new_stack.

(** The member initialisers [pool{}, free_nodes{new_stack()}] of the
    constructor, before its body runs. *)
Definition stack_pool_members (g : N → N) : stack_pool :=
  mk_pool (vec_empty g) new_stack.

(** What [std::length_error] reports for [reserve]. *)
Definition length_error_msg : string := "vector::reserve".

(** [reserve(n)] with the exception of [pool.reserve(n)]: beyond
    [max_size] the call throws and the pool stays as it was. *)
Definition reserve_checked (max_size n : size_type) : Pool unit :=
  fun p =>
    match vec_reserve_checked max_size n (pool p) with
    | Some v => Done tt (mk_pool v (free_nodes p))
    | None => Failed length_error_msg p
    end.

(** [stack_pool(n)]: the member initialisers, then the body
    [reserve(n)], which can throw. *)
Definition construct (max_size : size_type) (g : N → N) (n : size_type)
    : outcome stack_pool unit :=
  reserve_checked max_size n (stack_pool_members g).

(** The messages are streamed as a literal that ends in a newline,
    followed by [std::endl]. *)
Definition value_msg : string :=
  "Trying to get value from an invalid stack" +:+ newline +:+ newline.

Definition pop_msg : string :=
  "Trying to pop from an empty stack error " +:+ newline +:+ newline.

(** [value(x)] used as an rvalue, and [value(x) = v]. *)
Definition value (x : stack_type) : Pool T :=
  AP_ERROR (negb (empty x)) value_msg ;;
  n ← node x ;
  mret (node_value n).

Definition set_value (x : stack_type) (v : T) : Pool unit :=
  AP_ERROR (negb (empty x)) value_msg ;;
  n ← node x ;
  set_node x (mk_node v (node_next n)).

(** [next(x)] used as an rvalue, and [next(x) = y]. *)
Definition next (x : stack_type) : Pool stack_type :=
  n ← node x ;
  mret (node_next n).

Definition set_next (x y : stack_type) : Pool unit :=
  n ← node x ;
  set_node x (mk_node (node_value n) y).

(** [move_head(from, to)] takes both arguments by reference.  The
    references name a local variable and the member [free_nodes], never an
    element of the vector, so they are modelled by copy-in/copy-out: the
    function returns the final contents of [from] and [to]. *)
Definition move_head (from to : stack_type) : Pool (stack_type * stack_type) :=
  (* std::swap(next(from), to) *)
  nf ← next from ;
  set_next from to ;;
  let to1 := nf in
  (* std::swap(from, to) *)
  mret (to1, from).

Definition get_free_nodes : Pool stack_type :=
  fun p => Done (free_nodes p) p.

Definition set_free_nodes (x : stack_type) : Pool unit :=
  fun p => Done tt (mk_pool (pool p) x).

Definition pool_push_back (n : node_t) : Pool unit :=
  fun p => Done tt (mk_pool (vec_push_back n (pool p)) (free_nodes p)).

Definition pool_size : Pool size_type :=
  fun p => Done (vec_size (pool p)) p.

Definition _push (val : T) (head : stack_type) : Pool stack_type :=
  f ← get_free_nodes ;
  if empty f then
    pool_push_back (mk_node val head) ;;
    pool_size
  else
    set_value f val ;;
    '(f', head') ← move_head f head ;
    set_free_nodes f' ;;
    mret head'.

(** Both overloads of [push] forward to [_push]. *)
Definition push (val : T) (head : stack_type) : Pool stack_type :=
  _push val head.

(** [return pool.size()] converts a [size_type] to the handle type.  For
    an unsigned handle type of [bits] bits the conversion reduces modulo
    [2 ^ bits]. *)
Definition to_stack_type (bits : N) (s : size_type) : stack_type :=
  s mod 2 ^ bits.

(** [_push] of [stack_pool<T, N>] for an unsigned [N] of [bits] bits.
    The growth branch converts the new length; the reuse branch involves
    no conversion, and [free_nodes - 1] does not wrap around there, since
    the free-list head was just tested not to be the sentinel. *)
Definition _push_at (bits : N) (val : T) (head : stack_type)
    : Pool stack_type :=
  f ← get_free_nodes ;
  if empty f then
    pool_push_back (mk_node val head) ;;
    s ← pool_size ;
    mret (to_stack_type bits s)
  else
    set_value f val ;;
    '(f', head') ← move_head f head ;
    set_free_nodes f' ;;
    mret head'.

Definition push_at (bits : N) (val : T) (head : stack_type)
    : Pool stack_type :=
  _push_at bits val head.

Definition pop (x : stack_type) : Pool stack_type :=
  AP_ERROR (negb (empty x)) pop_msg ;;
  f ← get_free_nodes ;
  '(x', f') ← move_head x f ;
  set_free_nodes f' ;;
  mret x'.

(** ** The class _iterator *)

(** The member [pool] of an iterator, a [stack_pool* const], is
    [pool_ptr] here; [pool] names the vector of the pool. *)
Record _iterator : Type := mk_iterator {
  current : stack_type;
  pool_ptr : addr
}.

(** [operator=] assigns [current] only; [pool] is a const pointer. *)
Definition op_assign (self x : _iterator) : _iterator :=
  mk_iterator (current x) (pool_ptr self).

(** [operator&] *)
Definition op_addr (it : _iterator) : stack_type := current it.

Definition op_eq (x y : _iterator) : bool :=
  bool_decide (current x = current y).

Definition op_neq (x y : _iterator) : bool := negb (op_eq x y).

(** [operator*] and [operator++] go through [pool->]; they are written
    here as computations on the pool the iterator points to, and [on]
    below runs them at that address. *)
Definition op_deref (it : _iterator) : Pool T := value (current it).

Definition op_incr (it : _iterator) : Pool _iterator :=
  c ← next (current it) ;
  mret (mk_iterator c (pool_ptr it)).

(** [operator++(int)]: the pair is the returned copy and the advanced
    iterator. *)
Definition op_post_incr (it : _iterator) : Pool (_iterator * _iterator) :=
  let tmp := it in
  it' ← op_incr it ;
  mret (tmp, it').

(** ** Members of stack_pool that hand out iterators *)

Section methods.
Variable this : addr.

Definition begin (x : stack_type) : _iterator := mk_iterator x this.
Definition end_iter (_ : stack_type) : _iterator := mk_iterator end_ this.
Definition cbegin (x : stack_type) : _iterator := mk_iterator x this.
Definition cend (_ : stack_type) : _iterator := mk_iterator end_ this.

(** The loop of [get_last]; [fuel] bounds the number of tests of the
    loop condition. *)
Fixpoint get_last_loop (fuel : nat) (first : _iterator) : Pool stack_type :=
  match fuel with
  | O => out_of_fuel
  | S fuel' =>
      n ← next (op_addr first) ;
      if negb (bool_decide (n = end_)) then
        first' ← op_incr first ;
        get_last_loop fuel' first'
      else mret (op_addr first)
  end.

Definition get_last (fuel : nat) (x : stack_type) : Pool stack_type :=
  get_last_loop fuel (begin x).

Definition free_stack (fuel : nat) (x : stack_type) : Pool stack_type :=
  if empty x then mret x
  else
    tmp ← get_last fuel x ;
    f ← get_free_nodes ;
    set_next tmp f ;;
    set_free_nodes x ;;
    mret end_.

(** The client loop over one stack,
    [for (auto it = begin(h); it != end(h); ++it) out.push_back( *it )]. *)
Fixpoint traverse_loop (fuel : nat) (it stop : _iterator) : Pool (list T) :=
  match fuel with
  | O => out_of_fuel
  | S fuel' =>
      if op_neq it stop then
        v ← op_deref it ;
        it' ← op_incr it ;
        vs ← traverse_loop fuel' it' stop ;
        mret (v :: vs)
      else mret []
  end.

Definition traverse (fuel : nat) (h : stack_type) : Pool (list T) :=
  traverse_loop fuel (begin h) (end_iter h).

End methods.

(** ** Client programs *)

(** A run of pushes: the values [vs] are pushed in order, and before
    each push [pick] chooses the head to push onto from the handles
    returned so far.  The result is the list of all handles returned. *)
Fixpoint pushes (vs : list T) (pick : list stack_type → stack_type)
    (acc : list stack_type) : Pool (list stack_type) :=
  match vs with
  | [] => mret acc
  | v :: vs' =>
      h ← push v (pick acc) ;
      pushes vs' pick (acc ++ [h])
  end.

(** Pushing onto one stack: the head is the handle the previous push
    returned, and the sentinel before the first push. *)
Definition same_stack (acc : list stack_type) : stack_type :=
  default new_stack (last acc).

(** The same run of pushes for a handle type of [bits] bits. *)
Fixpoint pushes_at (bits : N) (vs : list T)
    (pick : list stack_type → stack_type)
    (acc : list stack_type) : Pool (list stack_type) :=
  match vs with
  | [] => mret acc
  | v :: vs' =>
      h ← push_at bits v (pick acc) ;
      pushes_at bits vs' pick (acc ++ [h])
  end.

(** A client that keeps the heads of its stacks in variables numbered
    from zero and always stores the handle an operation returns back into
    the variable it took the head from. *)
Inductive op : Type :=
| NewStack                        (* a new variable, set to new_stack() *)
| Push (i : nat) (v : T)          (* s_i = push(v, s_i) *)
| Pop (i : nat)                   (* s_i = pop(s_i) *)
| FreeStack (i : nat) (fuel : nat)  (* s_i = free_stack(s_i) *)
| Reserve (n : size_type).        (* reserve(n) *)

Definition exec (this : addr) (o : op) (hs : list stack_type)
    : Pool (list stack_type) :=
  match o with
  | NewStack => mret (hs ++ [new_stack])
  | Push i v =>
      match hs !! i with
      | Some h => h' ← push v h ; mret (<[i := h']> hs)
      | None => mret hs
      end
  | Pop i =>
      match hs !! i with
      | Some h => h' ← pop h ; mret (<[i := h']> hs)
      | None => mret hs
      end
  | FreeStack i fuel =>
      match hs !! i with
      | Some h => h' ← free_stack this fuel h ; mret (<[i := h']> hs)
      | None => mret hs
      end
  | Reserve n => reserve n ;; mret hs
  end.

Fixpoint exec_all (this : addr) (ops : list op) (hs : list stack_type)
    : Pool (list stack_type) :=
  match ops with
  | [] => mret hs
  | o :: ops' => hs' ← exec this o hs ; exec_all this ops' hs'
  end.

(** The same client with the length check of [reserve]. *)
Definition exec_checked (max_size : size_type) (this : addr) (o : op)
    (hs : list stack_type) : Pool (list stack_type) :=
  match o with
  | Reserve n => reserve_checked max_size n ;; mret hs
  | _ => exec this o hs
  end.

Fixpoint exec_all_checked (max_size : size_type) (this : addr)
    (ops : list op) (hs : list stack_type) : Pool (list stack_type) :=
  match ops with
  | [] => mret hs
  | o :: ops' =>
      hs' ← exec_checked max_size this o hs ;
      exec_all_checked max_size this ops' hs'
  end.

(** The whole program of such a client: construct the pool, then run. *)
Definition run_client (max_size : size_type) (g : N → N) (n : size_type)
    (this : addr) (ops : list op) : outcome stack_pool (list stack_type) :=
  (reserve_checked max_size n ;; exec_all_checked max_size this ops [])
    (stack_pool_members g).

(** A client under no discipline.  It remembers every handle an
    operation has returned to it, in the order received, and may pass any
    of them to any later call, however stale: [i] selects the handle
    received [i]-th. *)
Inductive call : Type :=
| CallNewStack                          (* new_stack() *)
| CallPush (i : nat) (v : T)            (* push(v, h_i) *)
| CallPop (i : nat)                     (* pop(h_i) *)
| CallFreeStack (i : nat) (fuel : nat)  (* free_stack(h_i) *)
| CallNext (i : nat)                    (* next(h_i), also &++begin(h_i) *)
| CallReserve (n : size_type).          (* reserve(n) *)

Definition call_run (max_size : size_type) (this : addr) (c : call)
    (known : list stack_type) : Pool (list stack_type) :=
  match c with
  | CallNewStack => mret (known ++ [new_stack])
  | CallPush i v =>
      match known !! i with
      | Some h => h' ← push v h ; mret (known ++ [h'])
      | None => mret known
      end
  | CallPop i =>
      match known !! i with
      | Some h => h' ← pop h ; mret (known ++ [h'])
      | None => mret known
      end
  | CallFreeStack i fuel =>
      match known !! i with
      | Some h => h' ← free_stack this fuel h ; mret (known ++ [h'])
      | None => mret known
      end
  | CallNext i =>
      match known !! i with
      | Some h => h' ← next h ; mret (known ++ [h'])
      | None => mret known
      end
  | CallReserve n => reserve_checked max_size n ;; mret known
  end.

Fixpoint calls_run (max_size : size_type) (this : addr) (cs : list call)
    (known : list stack_type) : Pool (list stack_type) :=
  match cs with
  | [] => mret known
  | c :: cs' =>
      known' ← call_run max_size this c known ;
      calls_run max_size this cs' known'
  end.

Definition run_calls (max_size : size_type) (g : N → N) (n : size_type)
    (this : addr) (cs : list call) : outcome stack_pool (list stack_type) :=
  (reserve_checked max_size n ;; calls_run max_size this cs [])
    (stack_pool_members g).

(** Several pools, each at its address. *)
Definition heap : Type := gmap addr stack_pool.

(** Run a member function on the pool stored at address [a]. *)
Definition on {A} (a : addr) (m : Pool A) : M heap A :=
  λ σ,
    match σ !! a with
    | None => Undefined
    | Some p =>
        match m p with
        | Done x p' => Done x (<[a := p']> σ)
        | Failed msg p' => Failed msg (<[a := p']> σ)
        | Undefined => Undefined
        | OutOfFuel => OutOfFuel
        end
    end.

(** [*it] and [++it] for an iterator held by a client of several pools. *)
Definition deref (it : _iterator) : M heap T :=
  on (pool_ptr it) (op_deref it).

Definition incr (it : _iterator) : M heap _iterator :=
  on (pool_ptr it) (op_incr it).

(** ** A pure view of the node storage *)

(** The node a handle resolves to, if the access is in bounds. *)
Definition nd (p : stack_pool) (x : stack_type) : option node_t :=
  vec_at (pool p) (pred_wrap x).

Definition size (p : stack_pool) : size_type := vec_size (pool p).

(** The pool after [node(x) = n], for [x] in bounds. *)
Definition upd (p : stack_pool) (x : stack_type) (n : node_t) : stack_pool :=
  mk_pool (mk_vector (<[N.to_nat (pred_wrap x) := n]> (elems (pool p)))
                     (cap (pool p)) (growth (pool p)))
          (free_nodes p).

Definition with_free (p : stack_pool) (f : stack_type) : stack_pool :=
  mk_pool (pool p) f.

Definition appended (p : stack_pool) (n : node_t) : stack_pool :=
  mk_pool (vec_push_back n (pool p)) (free_nodes p).

(** ** Chains: the nodes of one logical stack *)

(** [chain p h l]: following [next] from the handle [h] in the pool [p]
    visits exactly the nodes listed in [l], each with its value, and then
    reaches the sentinel. *)
Inductive chain (p : stack_pool) : stack_type → list (stack_type * T) → Prop :=
| chain_nil : chain p end_ []
| chain_cons x v nx l :
    x ≠ end_ →
    nd p x = Some (mk_node v nx) →
    chain p nx l →
    chain p x ((x, v) :: l).

(** The chain from [h] as a computation, for pools given explicitly. *)
Fixpoint chain_of (fuel : nat) (p : stack_pool) (h : stack_type)
    : option (list (stack_type * T)) :=
  match fuel with
  | O => None
  | S fuel' =>
      if decide (h = end_) then Some []
      else
        n ← nd p h ;
        l ← chain_of fuel' p (node_next n) ;
        Some ((h, node_value n) :: l)
  end.

(** ** Well-formed pools *)

(** [h] heads a chain that reaches the sentinel. *)
Definition live (p : stack_pool) (h : stack_type) : Prop :=
  ∃ l, chain p h l.

(** The chains from [h1] and [h2] share no node. *)
Definition separate (p : stack_pool) (h1 h2 : stack_type) : Prop :=
  ∀ l1 l2, chain p h1 l1 → chain p h2 l2 → ∀ x, x ∈ l1.*1 → x ∉ l2.*1.

(** The pool invariant for a client holding the heads [hs]: the free
    list and every stack are chains, and no two of them share a node. *)
Definition wf (p : stack_pool) (hs : list stack_type) : Prop :=
  live p (free_nodes p) ∧
  (∀ i h, hs !! i = Some h → live p h ∧ separate p h (free_nodes p)) ∧
  (∀ i j h h', i ≠ j → hs !! i = Some h → hs !! j = Some h' →
               separate p h h').

(** Every handle stored in the pool, the free-list head and the [next]
    of each node of the vector, is the sentinel or a node of the vector. *)
Definition closed (p : stack_pool) : Prop :=
  free_nodes p ≤ size p ∧
  ∀ n, n ∈ elems (pool p) → node_next n ≤ size p.

(** ** Further client programs *)

(** [k] times [++it]. *)
Fixpoint advance (k : nat) (it : _iterator) : Pool _iterator :=
  match k with
  | O => mret it
  | S k' => it' ← op_incr it ; advance k' it'
  end.

(** [k] pops in a row, each on the handle the previous one returned. *)
Fixpoint pops (k : nat) (h : stack_type) : Pool stack_type :=
  match k with
  | O => mret h
  | S k' => h' ← pop h ; pops k' h'
  end.

(** A run that ended with a state, ended with the state [p]. *)
Definition keeps_state {A} (o : outcome stack_pool A) (p : stack_pool)
    : Prop :=
  match o with
  | Done _ p' | Failed _ p' => p' = p
  | Undefined | OutOfFuel => True
  end.

(** Every node of the vector is on the free list or in the stack of one
    of the heads [hs]. *)
Definition covered (p : stack_pool) (hs : list stack_type) : Prop :=
  ∀ x, x ≠ end_ → x ≤ size p →
    (∃ fl, chain p (free_nodes p) fl ∧ x ∈ fl.*1) ∨
    (∃ i h l, hs !! i = Some h ∧ chain p h l ∧ x ∈ l.*1).

End stack_pool.

(** ** Concrete pools *)

(** The growth policy of libstdc++: the capacity doubles. *)
Definition doubling (c : N) : N := N.max 1 (2 * c).

(** Node 1 is a stack of its own, node 2 is on the free list. *)
Definition pool_one_free : stack_pool :=
  mk_pool (mk_vector [mk_node 10%nat 0; mk_node 20%nat 0] 2 doubling) 2.

(** Both nodes are on the free list: 2, then 1. *)
Definition pool_all_free : stack_pool :=
  mk_pool (mk_vector [mk_node 10%nat 0; mk_node 20%nat 1] 2 doubling) 2.

(** Stack A is 3, 2, 1 (values 3, 2, 1) and stack B is 5, 4 (values 5,
    4); the free list is empty. *)
Definition pool_two_stacks : stack_pool :=
  mk_pool (mk_vector [mk_node 1%nat 0; mk_node 2%nat 1; mk_node 3%nat 2;
                      mk_node 4%nat 0; mk_node 5%nat 4] 8 doubling) 0.

(** One stack holding the single node 1; the free list is empty. *)
Definition pool_one_node : stack_pool :=
  mk_pool (mk_vector [mk_node 7%nat 0] 1 doubling) 0.

(** Node 1 after [free_stack] was called twice on the handle 1: it is
    the free-list head and its own successor. *)
Definition pool_self_loop : stack_pool :=
  mk_pool (mk_vector [mk_node 7%nat 1] 1 doubling) 1.

(** One stack of 255 nodes, each holding the value 0: the node [i + 1]
    has the node [i] below it, and the free list is empty. *)
Definition pool_255_nodes : stack_pool :=
  mk_pool (mk_vector (imap (λ i v, mk_node v (N.of_nat i))
                           (replicate 255 0%nat))
                     256 doubling) 0.

(** A value for [max_size()]: libstdc++ on a 64-bit target, 16-byte
    nodes. *)
Definition max_size_16 : N := 2 ^ 59 - 1.

(** Two pools at the addresses 0 and 1. *)
Definition two_pools : @heap nat :=
  <[0%nat := pool_one_free]> (<[1%nat := pool_two_stacks]> ∅).

(** Membership facts about explicit lists of handles. *)
Ltac apart :=
  unfold not; intros; simpl in *;
  repeat match goal with
         | H : _ ∈ _ :: _ |- _ => apply elem_of_cons in H as [H|H]
         | H : _ ∈ [] |- _ => by apply elem_of_nil in H
         end; congruence.

(** * Properties *)

Section properties.
Context {T : Type}.
Local Abbreviation stack_pool := (@stack_pool T).
Local Abbreviation Pool := (M stack_pool).
Local Abbreviation heap := (@heap T).
Implicit Types (p q : stack_pool) (v val w : T).
Implicit Types (l la lb fl : list (stack_type * T)).

(** ** Basic facts about the storage view *)

Lemma pred_wrap_nonzero x : x ≠ 0 → pred_wrap x = x - 1.
Proof. intros Hx. unfold pred_wrap. by case_decide. Qed.

Lemma nd_lookup p x :
  x ≠ 0 → nd p x = elems (pool p) !! N.to_nat (x - 1).
Proof.
  intros Hx. unfold nd, vec_at. rewrite pred_wrap_nonzero by done.
  destruct (N.ltb_spec (x - 1) (vec_size (pool p))) as [H|H]; [done|].
  symmetry. apply lookup_ge_None. unfold vec_size in H. lia.
Qed.

Lemma nd_Some_range p x n :
  x ≠ 0 → nd p x = Some n → 1 ≤ x ≤ size p.
Proof.
  intros Hx. rewrite nd_lookup by done. intros H%lookup_lt_Some.
  unfold size, vec_size. lia.
Qed.

Lemma nd_in_range p x :
  x ≠ 0 → x ≤ size p → is_Some (nd p x).
Proof.
  intros Hx Hle. rewrite nd_lookup by done. apply lookup_lt_is_Some.
  unfold size, vec_size in Hle. lia.
Qed.

Lemma nd_with_free p f x : nd (with_free p f) x = nd p x.
Proof. done. Qed.

Lemma size_upd p x n : size (upd p x n) = size p.
Proof. unfold size, upd, vec_size. simpl. by rewrite length_insert. Qed.

Lemma nd_upd_eq p x n :
  x ≠ 0 → is_Some (nd p x) → nd (upd p x n) x = Some n.
Proof.
  intros Hx [m Hm]. rewrite nd_lookup by done. rewrite nd_lookup in Hm by done.
  simpl. rewrite pred_wrap_nonzero by done.
  apply list_lookup_insert_eq. by eapply lookup_lt_Some.
Qed.

Lemma nd_upd_ne p x y n :
  x ≠ 0 → y ≠ 0 → x ≠ y → nd (upd p x n) y = nd p y.
Proof.
  intros Hx Hy Hxy. rewrite !nd_lookup by done. simpl.
  rewrite pred_wrap_nonzero by done.
  apply list_lookup_insert_ne. lia.
Qed.

Lemma upd_upd p x n m : upd (upd p x n) x m = upd p x m.
Proof. unfold upd. simpl. by rewrite list_insert_insert_eq. Qed.


Lemma size_appended p n : size (appended p n) = size p + 1.
Proof.
  unfold size, appended, vec_size. simpl. rewrite length_app. simpl. lia.
Qed.

Lemma nd_appended_old p n x :
  x ≠ 0 → x ≤ size p → nd (appended p n) x = nd p x.
Proof.
  intros Hx Hle. rewrite !nd_lookup by done. simpl.
  apply lookup_app_l. unfold size, vec_size in Hle. lia.
Qed.

Lemma nd_appended_new p n : nd (appended p n) (size p + 1) = Some n.
Proof.
  rewrite nd_lookup by lia. simpl.
  apply list_lookup_middle. unfold size, vec_size. lia.
Qed.

(** ** The member functions in terms of the view *)

Lemma bind_Done {A B} (m : Pool A) (k : A → Pool B) p a p' :
  m p = Done a p' → (m ≫= k) p = k a p'.
Proof. intros H. unfold mbind, M_bind. by rewrite H. Qed.

Lemma bind_OutOfFuel {A B} (m : Pool A) (k : A → Pool B) p :
  m p = OutOfFuel → (m ≫= k) p = OutOfFuel.
Proof. intros H. unfold mbind, M_bind. by rewrite H. Qed.

Lemma bind_Failed {A B} (m : Pool A) (k : A → Pool B) p msg p' :
  m p = Failed msg p' → (m ≫= k) p = Failed msg p'.
Proof. intros H. unfold mbind, M_bind. by rewrite H. Qed.

Lemma bind_Undefined {A B} (m : Pool A) (k : A → Pool B) p :
  m p = Undefined → (m ≫= k) p = Undefined.
Proof. intros H. unfold mbind, M_bind. by rewrite H. Qed.

Lemma node_run x p :
  node x p = match nd p x with Some n => Done n p | None => Undefined end.
Proof. done. Qed.

Lemma set_node_run x n p :
  set_node x n p
  = match nd p x with Some _ => Done tt (upd p x n) | None => Undefined end.
Proof.
  unfold set_node, nd, vec_set, vec_at, upd.
  destruct (_ <? _) eqn:Hlt; [|done].
  destruct (elems (pool p) !! _) eqn:Hl; [done|].
  apply lookup_ge_None in Hl. apply N.ltb_lt in Hlt.
  unfold vec_size in Hlt. lia.
Qed.

Lemma reserve_run n p :
  reserve n p = Done () (mk_pool (vec_reserve n (pool p)) (free_nodes p)).
Proof. done. Qed.

Lemma nd_reserve n p x :
  nd (mk_pool (vec_reserve n (pool p)) (free_nodes p)) x = nd p x.
Proof.
  unfold nd, vec_at, vec_size, vec_reserve. simpl.
  by destruct (cap (pool p) <? n).
Qed.

Lemma elems_reserve n p :
  elems (pool (mk_pool (vec_reserve n (pool p)) (free_nodes p)))
  = elems (pool p).
Proof. unfold vec_reserve. simpl. by destruct (cap (pool p) <? n). Qed.

Lemma size_reserve n p :
  size (mk_pool (vec_reserve n (pool p)) (free_nodes p)) = size p.
Proof. unfold size, vec_size. by rewrite elems_reserve. Qed.


(** [reserve] within [max_size] is the plain [reserve]; beyond it the
    call throws and the pool is as before. *)
Lemma reserve_checked_fits max_size n p :
  n ≤ max_size → reserve_checked max_size n p = reserve n p.
Proof.
  intros H. unfold reserve_checked, vec_reserve_checked.
  by rewrite (proj2 (N.ltb_ge _ _)).
Qed.

Lemma reserve_checked_throws max_size n p :
  max_size < n → reserve_checked max_size n p = Failed length_error_msg p.
Proof.
  intros H. unfold reserve_checked, vec_reserve_checked.
  by rewrite (proj2 (N.ltb_lt _ _)).
Qed.

Lemma reserve_checked_cases max_size n p :
  n ≤ max_size ∧ reserve_checked max_size n p = reserve n p ∨
  max_size < n ∧ reserve_checked max_size n p = Failed length_error_msg p.
Proof.
  destruct (N.le_gt_cases n max_size) as [H|H]; [left|right].
  - split; [done|]. by apply reserve_checked_fits.
  - split; [done|]. by apply reserve_checked_throws.
Qed.

Lemma construct_fits max_size g n :
  n ≤ max_size → construct (T:=T) max_size g n = Done () (stack_pool_ctor g n).
Proof. intros H. unfold construct. by rewrite reserve_checked_fits. Qed.

Lemma next_run x p n : nd p x = Some n → next x p = Done (node_next n) p.
Proof. intros H. unfold next, mbind, M_bind. by rewrite node_run, H. Qed.

Lemma next_undefined x p : nd p x = None → next x p = Undefined.
Proof. intros H. unfold next, mbind, M_bind. by rewrite node_run, H. Qed.

Lemma value_run x p n :
  x ≠ 0 → nd p x = Some n → value x p = Done (node_value n) p.
Proof.
  intros Hx H. unfold value, mbind, M_bind, AP_ERROR, empty, end_.
  rewrite bool_decide_eq_false_2 by done. simpl. by rewrite node_run, H.
Qed.

Lemma set_next_run x y p n :
  nd p x = Some n →
  set_next x y p = Done tt (upd p x (mk_node (node_value n) y)).
Proof.
  intros H. unfold set_next, mbind, M_bind.
  by rewrite node_run, H, set_node_run, H.
Qed.

Lemma set_value_run x v p n :
  x ≠ 0 → nd p x = Some n →
  set_value x v p = Done tt (upd p x (mk_node v (node_next n))).
Proof.
  intros Hx H. unfold set_value, mbind, M_bind, AP_ERROR, empty, end_.
  rewrite bool_decide_eq_false_2 by done. simpl.
  by rewrite node_run, H, set_node_run, H.
Qed.

Lemma move_head_run from to p n :
  nd p from = Some n →
  move_head from to p
  = Done (node_next n, from) (upd p from (mk_node (node_value n) to)).
Proof.
  intros H. unfold move_head.
  rewrite (bind_Done _ _ _ _ _ (next_run _ _ _ H)).
  by rewrite (bind_Done _ _ _ _ _ (set_next_run _ to _ _ H)).
Qed.

(** [push] when the free list is empty: one node is appended and its
    handle is the new size. *)
Lemma push_grow val head p :
  free_nodes p = 0 →
  push val head p = Done (size p + 1) (appended p (mk_node val head)).
Proof.
  intros Hf. unfold push, _push, mbind, M_bind, get_free_nodes. rewrite Hf.
  simpl. unfold pool_size, appended, size. simpl. f_equal.
  unfold vec_size. simpl. rewrite length_app. simpl. lia.
Qed.

(** [push] when the free list is not empty: its first node is reused. *)
Lemma push_reuse val head p n :
  free_nodes p ≠ 0 → nd p (free_nodes p) = Some n →
  push val head p
  = Done (free_nodes p)
         (with_free (upd p (free_nodes p) (mk_node val head)) (node_next n)).
Proof.
  intros Hf Hn. unfold push, _push.
  rewrite (bind_Done _ _ p (free_nodes p) p) by done.
  unfold empty, end_. rewrite bool_decide_eq_false_2 by done.
  rewrite (bind_Done _ _ _ _ _ (set_value_run _ val _ _ Hf Hn)).
  erewrite bind_Done; last first.
  { apply move_head_run. apply nd_upd_eq; [done|by eexists]. }
  simpl. by rewrite upd_upd.
Qed.

Lemma pop_run x p n :
  x ≠ 0 → nd p x = Some n →
  pop x p
  = Done (node_next n)
         (with_free (upd p x (mk_node (node_value n) (free_nodes p))) x).
Proof.
  intros Hx Hn. unfold pop.
  erewrite bind_Done; last first.
  { unfold AP_ERROR, empty, end_. by rewrite bool_decide_eq_false_2. }
  rewrite (bind_Done _ _ p (free_nodes p) p) by done.
  by rewrite (bind_Done _ _ _ _ _ (move_head_run _ (free_nodes p) _ _ Hn)).
Qed.

(** ** Facts about chains *)

Lemma chain_end_inv p l : chain p end_ l → l = [].
Proof. by inversion 1. Qed.

Lemma chain_nil_inv p h : chain p h [] → h = end_.
Proof. by inversion 1. Qed.

Lemma chain_cons_inv p x l :
  x ≠ end_ → chain p x l →
  ∃ v nx l', l = (x, v) :: l' ∧ nd p x = Some (mk_node v nx) ∧ chain p nx l'.
Proof. intros Hx Hc. inversion Hc; subst; [done|]. eauto 10. Qed.

Lemma chain_det p h l1 l2 : chain p h l1 → chain p h l2 → l1 = l2.
Proof.
  intros Hc. revert l2. induction Hc as [|x v nx l Hx Hn _ IH]; intros l2 H2.
  - by apply chain_end_inv in H2.
  - apply chain_cons_inv in H2 as (v' & nx' & l' & -> & Hn' & Hc'); [|done].
    rewrite Hn in Hn'. injection Hn' as <- <-. f_equal. by apply IH.
Qed.

Lemma chain_in_range p h l x :
  chain p h l → x ∈ l.*1 → x ≠ end_ ∧ 1 ≤ x ≤ size p.
Proof.
  induction 1 as [|y v nx l Hy Hn _ IH]; simpl.
  - by intros ?%elem_of_nil.
  - intros [->|Hin]%elem_of_cons; [|by apply IH].
    split; [done|]. by eapply nd_Some_range.
Qed.

(** A chain only depends on the nodes it goes through. *)
Lemma chain_frame p p' h l :
  (∀ x, x ∈ l.*1 → nd p' x = nd p x) → chain p h l → chain p' h l.
Proof.
  intros Hsame Hc. induction Hc as [|x v nx l Hx Hn _ IH]; [constructor|].
  econstructor; [done| |].
  - rewrite Hsame; [done|]. simpl. by left.
  - apply IH. intros y Hy. apply Hsame. simpl. by right.
Qed.

Lemma chain_suffix p h l x :
  chain p h l → x ∈ l.*1 → ∃ l1 l2, l = l1 ++ l2 ∧ chain p x l2.
Proof.
  induction 1 as [|y v nx l Hy Hn Hc IH]; simpl.
  - by intros ?%elem_of_nil.
  - intros [->|Hin]%elem_of_cons.
    + exists [], ((y, v) :: l). split; [done|]. by econstructor.
    + destruct (IH Hin) as (l1 & l2 & -> & Hc2).
      by exists ((y, v) :: l1), l2.
Qed.

(** A chain that reaches the sentinel cannot go through a node twice. *)
Lemma chain_NoDup p h l : chain p h l → NoDup l.*1.
Proof.
  induction 1 as [|x v nx l Hx Hn Hc IH]; simpl; constructor; [|done].
  intros Hin. destruct (chain_suffix _ _ _ _ Hc Hin) as (l1 & l2 & -> & Hc2).
  assert (Hall : chain p x ((x, v) :: l1 ++ l2)) by by econstructor.
  pose proof (chain_det _ _ _ _ Hc2 Hall) as Heq.
  apply (f_equal length) in Heq. simpl in Heq. rewrite length_app in Heq. lia.
Qed.

Lemma chain_last p h l e :
  chain p h l → last l = Some e →
  e.1 ≠ end_ ∧ nd p e.1 = Some (mk_node e.2 end_).
Proof.
  induction 1 as [|x v nx l Hx Hn Hc IH]; [done|].
  destruct l as [|e' l'].
  - simpl. intros [= <-]. apply chain_nil_inv in Hc as ->. done.
  - rewrite last_cons_cons. apply IH.
Qed.

Lemma chain_of_sound fuel : ∀ p h l, chain_of fuel p h = Some l → chain p h l.
Proof.
  induction fuel as [|fuel IH]; intros p h l; simpl; [done|].
  case_decide as Hh; [intros [= <-]; subst h; constructor|].
  destruct (nd p h) as [[v nx]|] eqn:Hn; simpl; [|done].
  destruct (chain_of fuel p nx) as [l0|] eqn:Hl0; simpl; [|done].
  intros [= <-]. econstructor; [done..|]. by apply IH.
Qed.

(** ** Loops over a chain *)

Lemma op_incr_run it p n :
  nd p (current it) = Some n →
  op_incr it p = Done (mk_iterator (node_next n) (pool_ptr it)) p.
Proof.
  intros Hn. unfold op_incr.
  by rewrite (bind_Done _ _ _ _ _ (next_run _ _ _ Hn)).
Qed.

Lemma op_deref_run it p n :
  current it ≠ end_ → nd p (current it) = Some n →
  op_deref it p = Done (node_value n) p.
Proof. apply value_run. Qed.

(** With less fuel than the chain has nodes, the loop is cut. *)
Lemma get_last_short this p h l fuel :
  chain p h l → (fuel < length l)%nat →
  get_last this fuel h p = OutOfFuel.
Proof.
  unfold get_last, begin. intros Hc. revert fuel.
  induction Hc as [|x v nx l Hx Hn Hc IH]; intros fuel Hfuel;
    simpl in Hfuel; [lia|].
  destruct fuel as [|fuel]; [done|]. simpl. unfold op_addr. simpl.
  rewrite (bind_Done _ _ _ _ _ (next_run _ _ _ Hn)). simpl.
  destruct l as [|e' l']; [simpl in Hfuel; lia|].
  inversion Hc; subst.
  rewrite bool_decide_eq_false_2 by done. simpl.
  erewrite bind_Done; [|by apply op_incr_run].
  simpl. apply IH. simpl in *. lia.
Qed.

Lemma traverse_loop_chain this p h l fuel :
  chain p h l → (length l < fuel)%nat →
  traverse_loop fuel (mk_iterator h this) (mk_iterator end_ this) p
  = Done l.*2 p.
Proof.
  intros Hc. revert fuel.
  induction Hc as [|x v nx l Hx Hn _ IH]; intros [|fuel] Hfuel;
    simpl in Hfuel; try lia.
  - done.
  - simpl. unfold op_neq, op_eq. simpl.
    rewrite bool_decide_eq_false_2 by done. simpl.
    erewrite bind_Done; [|by apply op_deref_run].
    erewrite bind_Done; [|by apply op_incr_run].
    simpl. rewrite (bind_Done _ _ _ _ _ (IH fuel ltac:(lia))). done.
Qed.

Lemma traverse_chain this p h l fuel :
  chain p h l → (length l < fuel)%nat →
  traverse this fuel h p = Done l.*2 p.
Proof. apply traverse_loop_chain. Qed.

Lemma get_last_chain this p h l e fuel :
  chain p h l → last l = Some e → (length l ≤ fuel)%nat →
  get_last this fuel h p = Done e.1 p.
Proof.
  unfold get_last, begin. intros Hc. revert fuel.
  induction Hc as [|x v nx l Hx Hn Hc IH]; intros fuel Hlast Hfuel; [done|].
  destruct fuel as [|fuel]; simpl in Hfuel; [lia|]. simpl.
  unfold op_addr. simpl.
  rewrite (bind_Done _ _ _ _ _ (next_run _ _ _ Hn)). simpl.
  destruct l as [|e' l'].
  - apply chain_nil_inv in Hc as ->.
    simpl in Hlast. injection Hlast as <-. done.
  - inversion Hc; subst.
    rewrite bool_decide_eq_false_2 by done. simpl.
    erewrite bind_Done; [|by apply op_incr_run].
    simpl. apply IH; [by rewrite last_cons_cons in Hlast|simpl in *; lia].
Qed.

(** ** push and pop on a single node *)

Lemma push_undefined val head p :
  free_nodes p ≠ end_ → nd p (free_nodes p) = None →
  push val head p = Undefined.
Proof.
  intros Hf Hn. unfold push, _push.
  rewrite (bind_Done _ _ p (free_nodes p) p) by done.
  unfold empty. rewrite bool_decide_eq_false_2 by done.
  unfold set_value, AP_ERROR, empty, mbind, M_bind.
  rewrite bool_decide_eq_false_2 by done. simpl. by rewrite node_run, Hn.
Qed.

(** Every node but the one [push] hands out is left as it was. *)
Lemma push_frame val head p h' p' x :
  push val head p = Done h' p' → x ≠ end_ → x ≠ h' → nd p' x = nd p x.
Proof.
  intros Hpush Hx Hne. destruct (decide (free_nodes p = end_)) as [Hf|Hf].
  - rewrite push_grow in Hpush by done. injection Hpush as <- <-.
    destruct (decide (x ≤ size p)) as [Hle|Hgt].
    + by apply nd_appended_old.
    + rewrite !nd_lookup by done. simpl.
      rewrite !(proj2 (lookup_ge_None _ _)); [done| |];
        [|rewrite length_app; simpl]; unfold size, vec_size in *; lia.
  - destruct (nd p (free_nodes p)) as [n|] eqn:Hn.
    + rewrite (push_reuse _ _ _ _ Hf Hn) in Hpush. injection Hpush as <- <-.
      rewrite nd_with_free. by apply nd_upd_ne.
    + by rewrite push_undefined in Hpush.
Qed.

(** ** push, pop and free_stack on chains *)

(** The effect of one [push] on a pool whose free list is the chain [fl]:
    the node handed out is the first of [fl], or a fresh one past the old
    size when [fl] is empty. *)
Lemma push_spec val head p fl :
  chain p (free_nodes p) fl →
  ∃ h' p',
    push val head p = Done h' p' ∧
    h' ≠ end_ ∧
    nd p' h' = Some (mk_node val head) ∧
    chain p' (free_nodes p') (tail fl) ∧
    (h' ∉ (tail fl).*1) ∧
    (∀ x, x ≠ end_ → x ≠ h' → nd p' x = nd p x) ∧
    match fl with
    | [] => h' = size p + 1 ∧ size p' = size p + 1
    | e :: _ => h' = e.1 ∧ size p' = size p ∧ capacity p' = capacity p
    end.
Proof.
  intros Hfl. pose proof (chain_NoDup _ _ _ Hfl) as Hnd.
  inversion Hfl as [Hf Hl|x w nx l Hx Hn Hc Hf Hl].
  - symmetry in Hf. pose proof (push_grow val head p Hf) as Hpush.
    eexists _, _. split; [exact Hpush|].
    split; [unfold end_; lia|]. split; [apply nd_appended_new|].
    split; [simpl; rewrite Hf; constructor|].
    split; [simpl; apply not_elem_of_nil|].
    split; [intros x Hx Hne; by eapply push_frame|].
    split; [done|apply size_appended].
  - rewrite <- Hl in Hnd. simpl in Hnd. apply NoDup_cons in Hnd as [Hnotin _].
    assert (Hf' : free_nodes p ≠ end_) by done.
    pose proof (push_reuse val head p _ Hf' Hn) as Hpush. simpl in Hpush.
    eexists _, _. split; [exact Hpush|].
    split; [done|]. split; [|split; [|split; [|split]]].
    + rewrite nd_with_free. apply nd_upd_eq; [done|by eexists].
    + simpl. eapply chain_frame; [|exact Hc].
      intros y Hy. rewrite nd_with_free. apply nd_upd_ne; [done| |].
      * by eapply chain_in_range.
      * intros <-. done.
    + done.
    + intros y Hy Hne. by eapply push_frame.
    + simpl. split; [done|]. split; [apply size_upd|done].
Qed.

(** The effect of [pop] on a non-empty stack: its top node goes to the
    front of the free list. *)
Lemma pop_spec p x v l fl :
  chain p x ((x, v) :: l) →
  chain p (free_nodes p) fl →
  x ∉ fl.*1 →
  ∃ h' p',
    pop x p = Done h' p' ∧
    chain p' h' l ∧
    chain p' (free_nodes p') ((x, v) :: fl) ∧
    (∀ y, y ≠ end_ → y ≠ x → nd p' y = nd p y) ∧
    size p' = size p.
Proof.
  intros Hc Hfl Hnotin. pose proof (chain_NoDup _ _ _ Hc) as Hnd.
  simpl in Hnd. apply NoDup_cons in Hnd as [Hxl _].
  inversion Hc as [|? ? nx ? Hx Hn Hc']; subst.
  pose proof (pop_run _ _ _ Hx Hn) as Hpop. simpl in Hpop.
  eexists _, _. split; [exact Hpop|].
  assert (Hframe : ∀ y, y ≠ end_ → y ≠ x →
            nd (with_free (upd p x (mk_node v (free_nodes p))) x) y = nd p y).
  { intros y Hy Hne. rewrite nd_with_free. by apply nd_upd_ne. }
  split; [|split; [|split; [done|apply size_upd]]].
  - eapply chain_frame; [|exact Hc'].
    intros y Hy. apply Hframe; [|by intros ->].
    apply (chain_in_range _ _ _ _ Hc' Hy).
  - simpl. econstructor; [done| |].
    + rewrite nd_with_free. apply nd_upd_eq; [done|by eexists].
    + eapply chain_frame; [|exact Hfl].
      intros y Hy. apply Hframe; [|by intros ->].
      apply (chain_in_range _ _ _ _ Hfl Hy).
Qed.

Lemma free_stack_empty this fuel p :
  free_stack this fuel end_ p = Done end_ p.
Proof. done. Qed.

Lemma free_stack_run this fuel p x l e :
  x ≠ end_ → chain p x l → last l = Some e → (length l ≤ fuel)%nat →
  free_stack this fuel x p
  = Done end_ (with_free (upd p e.1 (mk_node e.2 (free_nodes p))) x).
Proof.
  intros Hx Hc Hlast Hfuel. unfold free_stack, empty.
  rewrite bool_decide_eq_false_2 by done.
  rewrite (bind_Done _ _ _ _ _ (get_last_chain this _ _ _ _ _ Hc Hlast Hfuel)).
  rewrite (bind_Done _ _ p (free_nodes p) p) by done.
  destruct (chain_last _ _ _ _ Hc Hlast) as [_ Hn].
  by rewrite (bind_Done _ _ _ _ _ (set_next_run _ (free_nodes p) _ _ Hn)).
Qed.

Lemma chain_last_exists p h l :
  chain p h l → h ≠ end_ → ∃ e, last l = Some e ∧ e.1 ≠ end_.
Proof.
  intros Hc Hh. destruct (last l) as [e|] eqn:Hlast.
  - exists e. split; [done|]. by eapply chain_last.
  - apply last_None in Hlast as ->. by apply chain_nil_inv in Hc.
Qed.

(** Redirecting the tail of a chain to [f] appends whatever chain starts
    at [f]. *)
Lemma chain_splice p x l e f fl :
  chain p x l → last l = Some e → chain p f fl → e.1 ∉ fl.*1 →
  chain (upd p e.1 (mk_node e.2 f)) x (l ++ fl).
Proof.
  intros Hc Hlast Hfl Hnotin. pose proof (chain_NoDup _ _ _ Hc) as Hnd.
  destruct (chain_last _ _ _ _ Hc Hlast) as [He Hne].
  induction Hc as [|y v nx l Hy Hn Hc IH]; [done|].
  simpl in Hnd. apply NoDup_cons in Hnd as [Hyl Hnd].
  destruct l as [|e' l'].
  - simpl in Hlast. injection Hlast as <-. simpl in *.
    econstructor; [done| |].
    + apply nd_upd_eq; [done|by eexists].
    + eapply chain_frame; [|exact Hfl].
      intros z Hz. apply nd_upd_ne; [done| |by intros ->].
      apply (chain_in_range _ _ _ _ Hfl Hz).
  - rewrite last_cons_cons in Hlast. simpl.
    econstructor; [done| |by apply IH].
    rewrite nd_upd_ne; [done|done|done|].
    intros <-. apply Hyl. apply list_elem_of_fmap_2.
    apply last_Some_elem_of in Hlast. done.
Qed.

(** ** Runs of pushes *)

Lemma elem_of_tail {A} (x : A) (l : list A) : x ∈ tail l → x ∈ l.
Proof. destruct l; simpl; [done|]. by right. Qed.

Lemma elem_of_tail' {A B} (f : A → B) (y : B) (l : list A) :
  y ∈ f <$> tail l → y ∈ f <$> l.
Proof. rewrite fmap_tail. apply elem_of_tail. Qed.


Lemma same_stack_snoc acc h : same_stack (acc ++ [h]) = h.
Proof. unfold same_stack. by rewrite last_snoc. Qed.


(** While the free list has nodes left, pushes take them in the order
    of the free list and the vector is not touched. *)
Lemma pushes_reuse_handles vs pick : ∀ acc p fl,
  chain p (free_nodes p) fl →
  (length vs ≤ length fl)%nat →
  ∃ p',
    pushes vs pick acc p = Done (acc ++ take (length vs) fl.*1) p' ∧
    capacity p' = capacity p ∧
    size p' = size p ∧
    chain p' (free_nodes p') (drop (length vs) fl).
Proof.
  induction vs as [|v vs IH]; intros acc p fl Hfl Hlen.
  - exists p. simpl. by rewrite app_nil_r, drop_0.
  - destruct (push_spec v (pick acc) p fl Hfl)
      as (h & p1 & Hpush & _ & _ & Hfl1 & _ & _ & Hcase).
    destruct fl as [|e fl']; simpl in Hlen; [lia|].
    destruct Hcase as (-> & Hsize & Hcap).
    destruct (IH (acc ++ [e.1]) p1 _ Hfl1)
      as (p' & Hrun & Hcap' & Hsize' & Hfl'); [simpl; lia|].
    exists p'. simpl. rewrite (bind_Done _ _ _ _ _ Hpush).
    rewrite <- app_assoc in Hrun. simpl in Hrun.
    split_and!; [done|congruence|congruence|done].
Qed.

(** ** The pool invariant is kept by every operation *)

Lemma chain_frame_one p p' c h l :
  (∀ x, x ≠ end_ → x ≠ c → nd p' x = nd p x) →
  chain p h l → c ∉ l.*1 → chain p' h l.
Proof.
  intros Hframe Hc Hnotin. eapply chain_frame; [|exact Hc].
  intros x Hx. apply Hframe; [|by intros ->].
  apply (chain_in_range _ _ _ _ Hc Hx).
Qed.

Lemma separate_intro p h1 h2 l1 l2 :
  chain p h1 l1 → chain p h2 l2 →
  (∀ x, x ∈ l1.*1 → x ∉ l2.*1) → separate p h1 h2.
Proof.
  intros H1 H2 Hdisj k1 k2 Hk1 Hk2.
  by rewrite (chain_det _ _ _ _ Hk1 H1), (chain_det _ _ _ _ Hk2 H2).
Qed.

(** The shape shared by push, pop and free_stack: variable [i] gets a new
    head with chain [l'], the free list becomes [fl'], and every other
    stack keeps its chain, apart from both. *)
Lemma wf_replace p p' hs i h' fl' l' :
  wf p hs →
  chain p' (free_nodes p') fl' →
  chain p' h' l' →
  (∀ x, x ∈ l'.*1 → x ∉ fl'.*1) →
  (∀ k hk lk, k ≠ i → hs !! k = Some hk → chain p hk lk →
     chain p' hk lk ∧ ∀ x, x ∈ lk.*1 → (x ∉ fl'.*1) ∧ (x ∉ l'.*1)) →
  wf p' (<[i := h']> hs).
Proof.
  intros (_ & Hlive & Hsep) Hfl' Hl' Hdisj Hothers.
  split; [by exists fl'|]. split.
  - intros k hk [(<- & <- & _)|[Hne Hk]]%list_lookup_insert_Some.
    + split; [by exists l'|]. by eapply separate_intro.
    + destruct (Hlive k hk Hk) as [[lk Hlk] _].
      destruct (Hothers k hk lk ltac:(done) Hk Hlk) as [Hlk' Hapart].
      split; [by exists lk|]. eapply separate_intro; [done..|].
      intros x Hx. by apply Hapart.
  - intros k j hk hj Hkj
      [(<- & <- & _)|[Hnek Hk]]%list_lookup_insert_Some
      [(<- & <- & _)|[Hnej Hj]]%list_lookup_insert_Some.
    + done.
    + destruct (Hlive j hj Hj) as [[lj Hlj] _].
      destruct (Hothers j hj lj ltac:(done) Hj Hlj) as [Hlj' Hapart].
      eapply separate_intro; [done..|].
      intros x Hx Hin. by apply (Hapart x Hin).
    + destruct (Hlive k hk Hk) as [[lk Hlk] _].
      destruct (Hothers k hk lk ltac:(done) Hk Hlk) as [Hlk' Hapart].
      eapply separate_intro; [done..|].
      intros x Hx. by apply Hapart.
    + destruct (Hlive k hk Hk) as [[lk Hlk] _].
      destruct (Hlive j hj Hj) as [[lj Hlj] _].
      destruct (Hothers k hk lk ltac:(done) Hk Hlk) as [Hlk' _].
      destruct (Hothers j hj lj ltac:(done) Hj Hlj) as [Hlj' _].
      eapply separate_intro; [done..|]. by apply (Hsep k j hk hj).
Qed.

Lemma wf_ctor g n : wf (T:=T) (stack_pool_ctor g n) [].
Proof.
  split; [exists []; constructor|]. split; [by intros ? ? ?|by intros ? ? ? ? ? ?].
Qed.

Lemma wf_new_stack p hs : wf p hs → wf p (hs ++ [new_stack]).
Proof.
  intros (Hfree & Hlive & Hsep).
  assert (Hnil : chain p new_stack []) by constructor.
  assert (Hl : ∀ h, separate p new_stack h).
  { intros h l1 l2 H1 _ x. rewrite (chain_det _ _ _ _ H1 Hnil).
    by intros ?%elem_of_nil. }
  assert (Hr : ∀ h, separate p h new_stack).
  { intros h l1 l2 _ H2 x _. rewrite (chain_det _ _ _ _ H2 Hnil).
    apply not_elem_of_nil. }
  split; [done|]. split.
  - intros k hk [Hk|[_ Hk]]%lookup_app_Some; [by eapply Hlive|].
    apply list_lookup_singleton_Some in Hk as [_ <-].
    split; [by exists []|done].
  - intros k j hk hj Hkj [Hk|[? Hk]]%lookup_app_Some
                         [Hj|[? Hj]]%lookup_app_Some.
    + by eapply Hsep.
    + apply list_lookup_singleton_Some in Hj as [_ <-]. done.
    + apply list_lookup_singleton_Some in Hk as [_ <-]. done.
    + apply list_lookup_singleton_Some in Hk as [? _].
      apply list_lookup_singleton_Some in Hj as [? _]. lia.
Qed.

Lemma wf_reserve p hs n p' :
  wf p hs → reserve n p = Done () p' → wf p' hs.
Proof.
  intros Hwf [= <-].
  assert (Hsame : ∀ h l, chain p h l ↔
            chain (mk_pool (vec_reserve n (pool p)) (free_nodes p)) h l).
  { intros h l. split; apply chain_frame; intros x _;
      unfold nd, vec_at, vec_size, vec_reserve; simpl;
      by destruct (cap (pool p) <? n). }
  destruct Hwf as ((fl & Hfl) & Hlive & Hsep).
  split; [exists fl; by apply Hsame|]. split.
  - intros k hk Hk. destruct (Hlive k hk Hk) as [[lk Hlk] Hs].
    split; [exists lk; by apply Hsame|].
    intros l1 l2 H1%Hsame H2%Hsame. by apply Hs.
  - intros k j hk hj Hkj Hk Hj l1 l2 H1%Hsame H2%Hsame.
    by apply (Hsep k j hk hj).
Qed.

Lemma wf_push p hs i h v :
  wf p hs → hs !! i = Some h →
  ∃ h' p', push v h p = Done h' p' ∧ wf p' (<[i := h']> hs).
Proof.
  intros Hwf Hi. pose proof Hwf as ((fl & Hfl) & Hlive & Hsep).
  destruct (Hlive i h Hi) as [[l Hl] Hsf].
  destruct (push_spec v h p fl Hfl)
    as (h' & p' & Hpush & Hh' & Hnode & Hfl' & Hnotin & Hframe & Hcase).
  assert (Hkeep : ∀ h0 l0, chain p h0 l0 → (∀ x, x ∈ l0.*1 → x ∉ fl.*1) →
            chain p' h0 l0 ∧ h' ∉ l0.*1).
  { intros h0 l0 H0 Hdisj. assert (h' ∉ l0.*1) as Hn.
    { intros Hin. destruct fl as [|e fl'].
      - destruct Hcase as [-> _].
        pose proof (chain_in_range _ _ _ _ H0 Hin) as [_ ?]. lia.
      - destruct Hcase as [-> _]. apply (Hdisj _ Hin). simpl. by left. }
    split; [by eapply chain_frame_one|done]. }
  destruct (Hkeep h l Hl (Hsf l fl Hl Hfl)) as [Hl' Hh'l].
  exists h', p'. split; [done|].
  eapply (wf_replace p p' hs i h' (tail fl) ((h', v) :: l)); [done|done| | |].
  - by econstructor.
  - intros x [->|Hx]%elem_of_cons; [done|].
    intros Hin%elem_of_tail'. by apply (Hsf l fl Hl Hfl x).
  - intros k hk lk Hk Hhk Hlk. destruct (Hlive k hk Hhk) as [_ Hsk].
    destruct (Hkeep hk lk Hlk (Hsk lk fl Hlk Hfl)) as [Hlk' Hn].
    split; [done|]. intros x Hx. split.
    + intros Hin%elem_of_tail'. by apply (Hsk lk fl Hlk Hfl x).
    + intros [->|Hin]%elem_of_cons; [done|].
      by apply (Hsep k i hk h Hk Hhk Hi lk l Hlk Hl x).
Qed.

Lemma wf_pop p hs i h :
  wf p hs → hs !! i = Some h → h ≠ end_ →
  ∃ h' p', pop h p = Done h' p' ∧ wf p' (<[i := h']> hs).
Proof.
  intros Hwf Hi Hh. pose proof Hwf as ((fl & Hfl) & Hlive & Hsep).
  destruct (Hlive i h Hi) as [[l Hl] Hsf].
  destruct (chain_cons_inv _ _ _ Hh Hl) as (v & nx & l' & -> & Hn & Hl').
  pose proof (chain_NoDup _ _ _ Hl) as Hnd. simpl in Hnd.
  apply NoDup_cons in Hnd as [Hhl' _].
  assert (Hhfl : h ∉ fl.*1).
  { apply (Hsf _ _ Hl Hfl). simpl. by left. }
  destruct (pop_spec p h v l' fl Hl Hfl Hhfl)
    as (h' & p' & Hpop & Hc' & Hfl' & Hframe & _).
  exists h', p'. split; [done|].
  eapply (wf_replace p p' hs i h' ((h, v) :: fl) l'); [done..| |].
  - intros x Hx [->|Hin]%elem_of_cons; [done|].
    apply (Hsf _ _ Hl Hfl x); [|done]. simpl. by right.
  - intros k hk lk Hk Hhk Hlk. destruct (Hlive k hk Hhk) as [_ Hsk].
    pose proof (Hsep k i hk h Hk Hhk Hi lk _ Hlk Hl) as Hapart.
    split; [|intros x Hx; split].
    + eapply chain_frame_one; [done..|].
      intros Hin. apply (Hapart h Hin). simpl. by left.
    + intros [->|Hin]%elem_of_cons.
      * apply (Hapart h Hx). simpl. by left.
      * by apply (Hsk lk fl Hlk Hfl x).
    + intros Hin. apply (Hapart x Hx). simpl. by right.
Qed.

Lemma wf_free_stack this fuel p hs i h l :
  wf p hs → hs !! i = Some h → chain p h l → (length l ≤ fuel)%nat →
  ∃ p', free_stack this fuel h p = Done end_ p' ∧ wf p' (<[i := end_]> hs).
Proof.
  intros Hwf Hi Hl Hfuel. destruct (decide (h = end_)) as [->|Hh].
  { exists p. split; [done|]. by rewrite list_insert_id. }
  pose proof Hwf as ((fl & Hfl) & Hlive & Hsep).
  destruct (Hlive i h Hi) as [_ Hsf].
  destruct (chain_last_exists p h l Hl Hh) as (e & Hlast & He).
  assert (Hel : e.1 ∈ l.*1).
  { apply list_elem_of_fmap_2. by apply last_Some_elem_of. }
  eexists. split; [by eapply free_stack_run|].
  eapply (wf_replace p _ hs i end_ (l ++ fl) []); [done| |constructor| |].
  - simpl. eapply (chain_frame (upd p e.1 (mk_node e.2 (free_nodes p)))); [done|].
    apply chain_splice; [done..|]. by apply (Hsf l fl Hl Hfl).
  - by intros x ?%elem_of_nil.
  - intros k hk lk Hk Hhk Hlk. destruct (Hlive k hk Hhk) as [_ Hsk].
    pose proof (Hsep k i hk h Hk Hhk Hi lk l Hlk Hl) as Hapart.
    split; [|intros x Hx; split].
    + eapply (chain_frame_one p _ e.1); [|done|].
      * intros x Hx Hne. rewrite nd_with_free. by apply nd_upd_ne.
      * intros Hin. by apply (Hapart e.1 Hin).
    + rewrite fmap_app. intros [Hin|Hin]%elem_of_app.
      * by apply (Hapart x Hx).
      * by apply (Hsk lk fl Hlk Hfl x).
    + simpl. apply not_elem_of_nil.
Qed.

(** A step of the client keeps the invariant. *)
Lemma wf_exec this o p hs hs' p' :
  wf p hs → exec this o hs p = Done hs' p' → wf p' hs'.
Proof.
  intros Hwf. destruct o as [|i v|i|i fuel|n]; simpl.
  - intros [= <- <-]. by apply wf_new_stack.
  - destruct (hs !! i) as [h|] eqn:Hi; [|by intros [= <- <-]].
    destruct (wf_push p hs i h v Hwf Hi) as (h' & p1 & Hpush & Hwf').
    rewrite (bind_Done _ _ _ _ _ Hpush). by intros [= <- <-].
  - destruct (hs !! i) as [h|] eqn:Hi; [|by intros [= <- <-]].
    destruct (decide (h = end_)) as [->|Hh]; [done|].
    destruct (wf_pop p hs i h Hwf Hi Hh) as (h' & p1 & Hpop & Hwf').
    rewrite (bind_Done _ _ _ _ _ Hpop). by intros [= <- <-].
  - destruct (hs !! i) as [h|] eqn:Hi; [|by intros [= <- <-]].
    destruct (free_stack this fuel h p) as [h' p1| | |] eqn:Hrun;
      unfold mbind, M_bind; rewrite Hrun; try done.
    intros [= <- <-]. destruct Hwf as (Hfree & Hlive & Hsep).
    destruct (Hlive i h Hi) as [[l Hl] _].
    destruct (decide (length l ≤ fuel)%nat) as [Hfuel|Hfuel].
    + destruct (wf_free_stack this fuel p hs i h l) as (p2 & Hrun2 & Hwf2);
        [done..|].
      rewrite Hrun in Hrun2. by injection Hrun2 as -> ->.
    + exfalso. revert Hrun. unfold free_stack.
      destruct (decide (h = end_)) as [->|Hh].
      { apply chain_end_inv in Hl as ->. simpl in Hfuel. lia. }
      unfold empty. rewrite bool_decide_eq_false_2 by done.
      rewrite bind_OutOfFuel; [done|].
      apply (get_last_short this p h l fuel); [done|lia].
  - unfold mbind, M_bind. simpl. intros [= <- <-].
    by eapply wf_reserve.
Qed.

Lemma wf_exec_all this ops : ∀ p hs hs' p',
  wf p hs → exec_all this ops hs p = Done hs' p' → wf p' hs'.
Proof.
  induction ops as [|o ops IH]; intros p hs hs' p' Hwf; simpl.
  - by intros [= <- <-].
  - destruct (exec this o hs p) as [hs1 p1| | |] eqn:Hrun;
      unfold mbind, M_bind; rewrite Hrun; try done.
    apply IH. by eapply wf_exec.
Qed.

(** ** Reachable states *)

(** Whatever the client has done, the invariant holds. *)
Lemma reachable_wf this g n ops hs p :
  exec_all this ops [] (stack_pool_ctor g n) = Done hs p → wf p hs.
Proof. apply wf_exec_all, wf_ctor. Qed.

(** The premises the theorems below put on the free-list head and on a
    stack head follow from the invariant. *)
Lemma wf_free_in_range p hs : wf p hs → free_nodes p ≤ size p.
Proof.
  intros ([fl Hfl] & _). inversion Hfl as [Hf|x v nx l Hx Hn _ Hf Hl].
  - unfold end_. lia.
  - by eapply nd_Some_range.
Qed.

Lemma wf_head_not_free p hs h :
  wf p hs → h ∈ hs → h ≠ end_ → h ≠ free_nodes p.
Proof.
  intros ([fl Hfl] & Hlive & _) [i Hi]%list_elem_of_lookup Hh Heq.
  destruct (Hlive i h Hi) as [[l Hl] Hsep].
  destruct (chain_cons_inv _ _ _ Hh Hl) as (v & nx & l' & -> & _).
  rewrite <- Heq in Hfl.
  destruct (chain_cons_inv _ _ _ Hh Hfl) as (v' & nx' & fl' & -> & _).
  rewrite <- Heq in Hsep.
  apply (Hsep _ _ Hl Hfl h); simpl; by left.
Qed.

Lemma wf_free_list p hs : wf p hs → ∃ fl, chain p (free_nodes p) fl.
Proof. by intros (Hfree & _). Qed.

(** Two different variables of the client hold stacks without a common
    node. *)
Lemma wf_stacks_apart p hs i j a b :
  wf p hs → i ≠ j → hs !! i = Some a → hs !! j = Some b →
  ∃ la lb, chain p a la ∧ chain p b lb ∧ ∀ x, x ∈ la.*1 → x ∉ lb.*1.
Proof.
  intros (_ & Hlive & Hsep) Hij Hi Hj.
  destruct (Hlive i a Hi) as [[la Hla] _].
  destruct (Hlive j b Hj) as [[lb Hlb] _].
  exists la, lb. split_and!; [done..|].
  by apply (Hsep i j a b Hij Hi Hj).
Qed.

Lemma next_sentinel p : size p ≤ SIZE_MAX → next end_ p = Undefined.
Proof.
  intros Hsize. apply next_undefined. unfold nd, vec_at, pred_wrap. simpl.
  fold (size p). by rewrite (proj2 (N.ltb_ge _ _)).
Qed.

(** ** Stored handles stay in the vector *)

Lemma nd_elem p x n : nd p x = Some n → n ∈ elems (pool p).
Proof.
  unfold nd, vec_at.
  destruct (pred_wrap x <? vec_size (pool p)); [|done].
  apply list_elem_of_lookup_2.
Qed.

Lemma next_Done x p nx p' :
  next x p = Done nx p' → p' = p ∧ ∃ n, nd p x = Some n ∧ nx = node_next n.
Proof.
  unfold next, mbind, M_bind. rewrite node_run.
  destruct (nd p x) as [n|]; [|done]. intros [= <- <-]. eauto.
Qed.

Lemma closed_upd p x v y f :
  closed p → y ≤ size p → f ≤ size p →
  closed (with_free (upd p x (mk_node v y)) f).
Proof.
  intros [_ Hn] Hy Hf.
  assert (Hsize : size (with_free (upd p x (mk_node v y)) f) = size p)
    by apply size_upd.
  split; [by rewrite Hsize|]. rewrite Hsize. intros n. simpl.
  intros [j Hj]%list_elem_of_lookup.
  apply list_lookup_insert_Some in Hj as [(_ & <- & _)|[_ Hj]]; [done|].
  apply Hn. by eapply list_elem_of_lookup_2.
Qed.

Lemma closed_appended p v h :
  closed p → h ≤ size p → closed (appended p (mk_node v h)).
Proof.
  intros [Hf Hn] Hh. split; rewrite size_appended.
  - simpl. lia.
  - intros n. simpl. intros [Hin| ->%list_elem_of_singleton]%elem_of_app.
    + apply Hn in Hin. lia.
    + simpl. lia.
Qed.

Lemma closed_reserve p n :
  closed p → closed (mk_pool (vec_reserve n (pool p)) (free_nodes p)).
Proof.
  intros [Hf Hn]. split; rewrite size_reserve; [done|].
  by rewrite elems_reserve.
Qed.

Lemma closed_ctor g n : closed (T:=T) (stack_pool_ctor g n).
Proof.
  apply (closed_reserve (stack_pool_members g)). split; [done|].
  by intros m ?%elem_of_nil.
Qed.

Lemma closed_next p x :
  closed p → x ≠ end_ → x ≤ size p →
  ∃ n, nd p x = Some n ∧ next x p = Done (node_next n) p ∧
       node_next n ≤ size p.
Proof.
  intros [_ Hn] Hx Hle. destruct (nd_in_range p x Hx Hle) as [n Hnx].
  exists n. split; [done|]. split; [by apply next_run|].
  apply Hn. by eapply nd_elem.
Qed.

Lemma closed_push p v h :
  closed p → h ≤ size p →
  ∃ h' p', push v h p = Done h' p' ∧ closed p' ∧
           size p ≤ size p' ∧ h' ≤ size p'.
Proof.
  intros Hcl Hh. pose proof Hcl as [Hf Hn].
  destruct (decide (free_nodes p = end_)) as [He|He].
  - eexists _, _. split; [by apply push_grow|]. rewrite size_appended.
    split; [by apply closed_appended|]. lia.
  - destruct (nd_in_range p _ He Hf) as [n Hnf].
    eexists _, _. split; [by apply (push_reuse _ _ _ n)|].
    assert (Hsize : size (with_free (upd p (free_nodes p) (mk_node v h))
                                    (node_next n)) = size p)
      by apply size_upd.
    rewrite Hsize. split; [|lia].
    apply closed_upd; [done..|]. apply Hn. by eapply nd_elem.
Qed.

Lemma closed_pop p x :
  closed p → x ≠ end_ → x ≤ size p →
  ∃ h' p', pop x p = Done h' p' ∧ closed p' ∧
           size p' = size p ∧ h' ≤ size p'.
Proof.
  intros Hcl Hx Hle. pose proof Hcl as [Hf Hn].
  destruct (nd_in_range p x Hx Hle) as [n Hnx].
  eexists _, _. split; [by apply pop_run|].
  assert (Hsize : size (with_free (upd p x (mk_node (node_value n)
                                             (free_nodes p))) x) = size p)
    by apply size_upd.
  rewrite Hsize. split; [by apply closed_upd|]. split; [done|].
  apply Hn. by eapply nd_elem.
Qed.

(** The walk of [get_last] stays in the vector: it finds a tail or goes
    on for as long as it is given fuel. *)
Lemma closed_get_last_loop p :
  closed p → ∀ fuel x ptr, x ≠ end_ → x ≤ size p →
  get_last_loop fuel (mk_iterator x ptr) p = OutOfFuel ∨
  ∃ tmp, get_last_loop fuel (mk_iterator x ptr) p = Done tmp p ∧
         tmp ≠ end_ ∧ tmp ≤ size p.
Proof.
  intros Hcl. induction fuel as [|fuel IH]; intros x ptr Hx Hle; [by left|].
  destruct (closed_next p x Hcl Hx Hle) as (n & Hn & Hnext & Hnle).
  simpl. unfold op_addr. simpl.
  rewrite (bind_Done _ _ _ _ _ Hnext).
  destruct (decide (node_next n = end_)) as [He|He].
  - rewrite bool_decide_eq_true_2 by done. simpl. right. by exists x.
  - rewrite bool_decide_eq_false_2 by done. simpl.
    erewrite bind_Done; [|by apply op_incr_run]. simpl. by apply IH.
Qed.

Lemma closed_free_stack this fuel p x :
  closed p → x ≤ size p →
  free_stack this fuel x p = OutOfFuel ∨
  ∃ p', free_stack this fuel x p = Done end_ p' ∧ closed p' ∧
        size p' = size p.
Proof.
  intros Hcl Hle. destruct (decide (x = end_)) as [->|Hx].
  { right. by exists p. }
  unfold free_stack, empty. rewrite bool_decide_eq_false_2 by done.
  unfold get_last, begin.
  destruct (closed_get_last_loop p Hcl fuel x this Hx Hle)
    as [Hcut|(tmp & Hrun & Htmp & Htle)].
  - left. by apply bind_OutOfFuel.
  - right. rewrite (bind_Done _ _ _ _ _ Hrun).
    rewrite (bind_Done _ _ p (free_nodes p) p) by done.
    destruct (nd_in_range p tmp Htmp Htle) as [n Hn].
    rewrite (bind_Done _ _ _ _ _ (set_next_run _ (free_nodes p) _ _ Hn)).
    exists (with_free (upd p tmp (mk_node (node_value n) (free_nodes p))) x).
    split; [done|]. split; [|apply size_upd].
    apply closed_upd; [done| |done]. apply Hcl.
Qed.

(** Whatever the client calls with the handles it has received, the
    stored handles and the received ones stay in the vector. *)
Lemma closed_call max_size this c known p known' p' :
  closed p → (∀ h, h ∈ known → h ≤ size p) →
  call_run max_size this c known p = Done known' p' →
  closed p' ∧ (∀ h, h ∈ known' → h ≤ size p').
Proof.
  intros Hcl Hk.
  assert (Hsnoc : ∀ q h', size p ≤ size q → h' ≤ size q →
            ∀ h, h ∈ known ++ [h'] → h ≤ size q).
  { intros q h' Hq Hh' h [Hin| ->%list_elem_of_singleton]%elem_of_app;
      [|done]. apply Hk in Hin. lia. }
  destruct c as [|i v|i|i fuel|i|n]; simpl.
  - intros [= <- <-]. split; [done|]. apply Hsnoc; [done|].
    unfold new_stack, end_. lia.
  - destruct (known !! i) as [h|] eqn:Hi; [|by intros [= <- <-]].
    apply list_elem_of_lookup_2, Hk in Hi.
    destruct (closed_push p v h Hcl Hi) as (h' & p1 & Hpush & Hcl1 & Hs & Hh').
    rewrite (bind_Done _ _ _ _ _ Hpush). intros [= <- <-].
    split; [done|]. by apply Hsnoc.
  - destruct (known !! i) as [h|] eqn:Hi; [|by intros [= <- <-]].
    apply list_elem_of_lookup_2, Hk in Hi.
    destruct (decide (h = end_)) as [->|Hh]; [done|].
    destruct (closed_pop p h Hcl Hh Hi) as (h' & p1 & Hpop & Hcl1 & Hs & Hh').
    rewrite (bind_Done _ _ _ _ _ Hpop). intros [= <- <-].
    split; [done|]. apply Hsnoc; [lia|done].
  - destruct (known !! i) as [h|] eqn:Hi; [|by intros [= <- <-]].
    apply list_elem_of_lookup_2, Hk in Hi.
    destruct (closed_free_stack this fuel p h Hcl Hi)
      as [Hcut|(p1 & Hfree & Hcl1 & Hs)].
    + by rewrite (bind_OutOfFuel _ _ _ Hcut).
    + rewrite (bind_Done _ _ _ _ _ Hfree). intros [= <- <-].
      split; [done|]. apply Hsnoc; [lia|]. unfold end_. lia.
  - destruct (known !! i) as [h|] eqn:Hi; [|by intros [= <- <-]].
    destruct (next h p) as [nx p1|msg p1| |] eqn:Hnext;
      unfold mbind, M_bind; rewrite Hnext; try done.
    intros [= <- <-].
    apply next_Done in Hnext as (-> & n & Hn & ->).
    split; [done|]. apply Hsnoc; [done|]. apply Hcl. by eapply nd_elem.
  - destruct (reserve_checked_cases max_size n p) as [[_ Hr]|[_ Hr]];
      unfold mbind, M_bind; rewrite Hr; [|done].
    simpl. intros [= <- <-]. split; [by apply closed_reserve|].
    intros h Hin. rewrite size_reserve. by apply Hk.
Qed.

Lemma closed_calls max_size this cs : ∀ known p known' p',
  closed p → (∀ h, h ∈ known → h ≤ size p) →
  calls_run max_size this cs known p = Done known' p' →
  closed p' ∧ (∀ h, h ∈ known' → h ≤ size p').
Proof.
  induction cs as [|c cs IH]; intros known p known' p' Hcl Hk; simpl.
  - by intros [= <- <-].
  - destruct (call_run max_size this c known p) as [k1 p1| | |] eqn:Hrun;
      unfold mbind, M_bind; rewrite Hrun; try done.
    destruct (closed_call _ _ _ _ _ _ _ Hcl Hk Hrun) as [Hcl1 Hk1].
    by apply IH.
Qed.

Lemma closed_run_calls max_size g n this cs known p :
  run_calls max_size g n this cs = Done known p →
  closed p ∧ (∀ h, h ∈ known → h ≤ size p).
Proof.
  unfold run_calls.
  destruct (reserve_checked_cases max_size n (stack_pool_members (T:=T) g))
    as [[_ Hr]|[_ Hr]]; unfold mbind, M_bind; rewrite Hr; [|done].
  simpl. apply closed_calls; [apply closed_ctor|].
  by intros h ?%elem_of_nil.
Qed.

(** [free_stack] returns on every node of a chain that reaches the
    sentinel. *)
Lemma free_stack_on_chain this p h0 l h :
  chain p h0 l → h = h0 ∨ h ∈ l.*1 →
  ∀ fuel, (length l ≤ fuel)%nat →
    ∃ p', free_stack this fuel h p = Done end_ p'.
Proof.
  intros Hc Hh fuel Hfuel.
  assert (∃ l', chain p h l' ∧ (length l' ≤ length l)%nat) as (l' & Hc' & Hlen).
  { destruct Hh as [->|Hin]; [by exists l|].
    destruct (chain_suffix _ _ _ _ Hc Hin) as (l1 & l2 & -> & Hc2).
    exists l2. split; [done|]. rewrite length_app. lia. }
  destruct (decide (h = end_)) as [->|Hne]; [by exists p|].
  destruct (chain_last_exists p h l' Hc' Hne) as (e & Hlast & _).
  eexists. eapply free_stack_run; [done..|lia].
Qed.

(** * The claims *)



(** C3: when the [c] nodes of the storage are all on the free list
    [fl], the next [k ≤ c] pushes (whatever values and heads they are
    given) return the handles of the first [k] nodes of [fl], in the
    order of the free list, leave the rest of [fl] as the free list, and
    leave the size and the capacity of the vector as they are.  A push
    appends to the vector exactly when the free list is empty: from an
    empty free list it returns the new length and the size goes up by
    one, and a push that changes the size started from an empty free
    list. *)
Theorem freed_nodes_reused_before_growth (c : nat) (vs : list T)
    (pick : list stack_type → stack_type)
    (p : stack_pool) (fl : list (stack_type * T)) :
  chain p (free_nodes p) fl →
  size p = N.of_nat c →
  length fl = c →
  (length vs ≤ c)%nat →
  (∃ hs p',
     pushes vs pick [] p = Done hs p' ∧
     hs = take (length vs) fl.*1 ∧
     chain p' (free_nodes p') (drop (length vs) fl) ∧
     capacity p' = capacity p ∧
     size p' = size p) ∧
  (∀ q v h, free_nodes q = end_ →
     ∃ q', push v h q = Done (size q + 1) q' ∧ size q' = size q + 1) ∧
  (∀ q v h h' q',
     push v h q = Done h' q' → size q' ≠ size q → free_nodes q = end_).
Proof.
  intros Hfl _ Hc Hlen. split; [|split].
  - destruct (pushes_reuse_handles vs pick [] p fl Hfl ltac:(lia))
      as (p' & Hrun & Hcap & Hsize & Hfl').
    by exists (take (length vs) fl.*1), p'.
  - intros q v h Hf. eexists. split; [by apply push_grow|].
    apply size_appended.
  - intros q v h h' q' Hpush Hsize.
    destruct (decide (free_nodes q = end_)) as [|Hf]; [done|].
    destruct (nd q (free_nodes q)) as [n|] eqn:Hn.
    + rewrite (push_reuse _ _ _ _ Hf Hn) in Hpush. injection Hpush as <- <-.
      destruct Hsize. apply size_upd.
    + by rewrite push_undefined in Hpush.
Qed.

(** C4: [free_stack] on the sentinel returns the sentinel and leaves the
    pool as it is.  On a non-empty stack with chain [l] it returns the
    sentinel, and the pool it leaves differs from the old one in two
    places: the tail of [l] (the node whose [next] was the sentinel) now
    points to the old free-list head, and the free-list head is [h]; so
    the new free list is [l] followed by the old free list. *)
Theorem free_stack_prepends_chain (this : addr) (fuel : nat)
    (p : stack_pool) (h : stack_type) (l : list (stack_type * T)) :
  chain p h l →
  (length l ≤ fuel)%nat →
  (h = end_ → free_stack this fuel h p = Done end_ p) ∧
  (h ≠ end_ →
   ∃ e, last l = Some e ∧
        nd p e.1 = Some (mk_node e.2 end_) ∧
        get_last this fuel h p = Done e.1 p ∧
        let p' := with_free (upd p e.1 (mk_node e.2 (free_nodes p))) h in
        free_stack this fuel h p = Done end_ p' ∧
        nd p' e.1 = Some (mk_node e.2 (free_nodes p)) ∧
        free_nodes p' = h ∧
        (∀ x, x ≠ end_ → x ≠ e.1 → nd p' x = nd p x) ∧
        ∀ fl, chain p (free_nodes p) fl →
              (∀ x, x ∈ l.*1 → x ∉ fl.*1) →
              chain p' (free_nodes p') (l ++ fl)).
Proof.
  intros Hc Hfuel. split; [by intros ->|]. intros Hh.
  destruct (last l) as [e|] eqn:Hlast; last first.
  { apply last_None in Hlast as ->. by apply chain_nil_inv in Hc. }
  destruct (chain_last _ _ _ _ Hc Hlast) as [He Hn].
  exists e. cbv zeta. split_and!; try done.
  - by eapply get_last_chain.
  - by eapply free_stack_run.
  - rewrite nd_with_free. apply nd_upd_eq; [done|by eexists].
  - intros x Hx Hne. rewrite nd_with_free. by apply nd_upd_ne.
  - intros fl Hfl Hdisj. simpl.
    eapply (chain_frame (upd p e.1 (mk_node e.2 (free_nodes p)))); [done|].
    apply chain_splice; [done..|].
    apply Hdisj. apply list_elem_of_fmap_2. by apply last_Some_elem_of.
Qed.

(** C5: [value] and [pop] on the sentinel each end in the failed check,
    reported once, and the state in which the check fails is the state
    the call started from. *)
Theorem sentinel_fails_check_unmutated (p : stack_pool) :
  value end_ p = Failed value_msg p ∧
  pop end_ p = Failed pop_msg p ∧
  diagnostics (value end_ p) = [value_msg] ∧
  diagnostics (pop end_ p) = [pop_msg].
Proof. done. Qed.

(** The heads of a caller that stores each returned handle back into
    the variable it took the head from: in every state such a client
    reaches from a fresh pool through new_stack, push, pop, free_stack
    and reserve, and for every head [h] it holds (the sentinel
    included), [push] onto [h] returns, [free_stack] of [h] returns the
    sentinel once its loop is given enough fuel, and [begin]/[end] build
    their iterators; [next h] returns when [h] is not the sentinel, while
    [next] of the sentinel indexes the vector at [SIZE_MAX] and is out of
    bounds. *)
Lemma held_handles_total_except_next_of_sentinel (this : addr)
    (g : N → N) (n : size_type) (ops : list op) (hs : list stack_type)
    (p : stack_pool) (h : stack_type) :
  exec_all this ops [] (stack_pool_ctor g n) = Done hs p →
  h ∈ hs →
  (∀ v, ∃ h' p', push v h p = Done h' p') ∧
  (∃ fuel, ∀ fuel', (fuel ≤ fuel')%nat →
     ∃ p', free_stack this fuel' h p = Done end_ p') ∧
  current (begin this h) = h ∧
  current (end_iter this h) = end_ ∧
  (h ≠ end_ → ∃ nx, next h p = Done nx p) ∧
  (h = end_ → size p ≤ SIZE_MAX → next h p = Undefined).
Proof.
  intros Hrun Hin.
  pose proof (wf_exec_all this ops _ _ _ _ (wf_ctor g n) Hrun) as Hwf.
  apply list_elem_of_lookup in Hin as [i Hi].
  pose proof Hwf as (_ & Hlive & _).
  destruct (Hlive i h Hi) as [[l Hl] _].
  split_and!; try done.
  - intros v. destruct (wf_push p hs i h v Hwf Hi) as (h' & p' & Hpush & _).
    by exists h', p'.
  - exists (length l). intros fuel' Hfuel.
    destruct (wf_free_stack this fuel' p hs i h l Hwf Hi Hl Hfuel)
      as (p' & Hfree & _).
    by exists p'.
  - intros Hh.
    destruct (chain_cons_inv _ _ _ Hh Hl) as (v & nx & l' & _ & Hn & _).
    exists nx. by rewrite (next_run _ _ _ Hn).
  - intros ->. apply next_sentinel.
Qed.

(** C6, as amended: take any handle [h] that the operations of the pool
    have ever returned to a client (from new_stack, push, pop,
    free_stack or next, the sentinel included), whatever the client has
    done with its handles since, stale ones too.  In the state reached,
    [push] onto [h] returns, [begin]/[end] build their iterators, and
    [next h] returns a handle of the vector when [h] is not the sentinel;
    [next] of the sentinel indexes the vector at [SIZE_MAX] and is out of
    bounds.  [free_stack] of [h] never fails a check and never leaves the
    vector: it returns the sentinel, or its walk goes on for as long as
    it is given fuel; it returns whenever [h] lies on a chain that
    reaches the sentinel, as every head and every node of a stack does. *)
Theorem produced_handles_total_except_next_of_sentinel
    (max_size : size_type) (this : addr) (g : N → N) (n : size_type)
    (cs : list call) (known : list stack_type) (p : stack_pool)
    (h : stack_type) :
  run_calls max_size g n this cs = Done known p →
  h ∈ known →
  (∀ v, ∃ h' p', push v h p = Done h' p') ∧
  current (begin this h) = h ∧
  current (end_iter this h) = end_ ∧
  (h ≠ end_ → ∃ nx, next h p = Done nx p ∧ nx ≤ size p) ∧
  (h = end_ → size p ≤ SIZE_MAX → next h p = Undefined) ∧
  (∀ fuel, (∃ p', free_stack this fuel h p = Done end_ p') ∨
           free_stack this fuel h p = OutOfFuel) ∧
  (∀ h0 l, chain p h0 l → h = h0 ∨ h ∈ l.*1 →
     ∀ fuel, (length l ≤ fuel)%nat →
       ∃ p', free_stack this fuel h p = Done end_ p').
Proof.
  intros Hrun Hin.
  destruct (closed_run_calls _ _ _ _ _ _ _ Hrun) as [Hcl Hk].
  apply Hk in Hin. split_and!; try done.
  - intros v. destruct (closed_push p v h Hcl Hin) as (h' & p' & Hpush & _).
    by exists h', p'.
  - intros Hh.
    destruct (closed_next p h Hcl Hh Hin) as (m & _ & Hnext & Hle).
    by exists (node_next m).
  - intros ->. apply next_sentinel.
  - intros fuel.
    destruct (closed_free_stack this fuel p h Hcl Hin)
      as [Hcut|(p' & Hfree & _)]; [by right|left; by exists p'].
  - intros h0 l Hc Hh. by eapply free_stack_on_chain.
Qed.

(** C7: freeing stack A leaves an independent stack B of the same pool
    as it was: when the chains of A and B share no node, [free_stack] on
    A returns, B still has the same chain, and iterating B yields the
    same values in the same order before and after. *)
Theorem free_stack_leaves_other_stack (this : addr) (fuel : nat)
    (p : stack_pool) (a b : stack_type) (la lb : list (stack_type * T)) :
  chain p a la →
  chain p b lb →
  (∀ x, x ∈ la.*1 → x ∉ lb.*1) →
  (length la ≤ fuel)%nat →
  ∃ p',
    free_stack this fuel a p = Done end_ p' ∧
    chain p' b lb ∧
    ∀ fuel', (length lb < fuel')%nat →
      traverse this fuel' b p = Done lb.*2 p ∧
      traverse this fuel' b p' = Done lb.*2 p'.
Proof.
  intros Ha Hb Hdisj Hfuel.
  assert (∃ p', free_stack this fuel a p = Done end_ p' ∧ chain p' b lb)
    as (p' & Hrun & Hb').
  { destruct (decide (a = end_)) as [->|Hne]; [by exists p|].
    destruct (chain_last_exists p a la Ha Hne) as (e & Hlast & He).
    eexists. split; [by eapply free_stack_run|].
    eapply chain_frame; [|exact Hb].
    intros x Hx. rewrite nd_with_free. apply nd_upd_ne.
    - apply (chain_in_range _ _ _ _ Ha).
      apply list_elem_of_fmap_2. by apply last_Some_elem_of.
    - apply (chain_in_range _ _ _ _ Hb Hx).
    - intros <-. eapply Hdisj; [|exact Hx].
      apply list_elem_of_fmap_2. by apply last_Some_elem_of. }
  exists p'. split_and!; try done.
  intros fuel' Hfuel'. split; by apply traverse_chain.
Qed.

(** C8: [operator==] looks at the current handles only, whatever pools
    the two iterators point to, and [operator!=] is its negation. *)
Theorem iterator_eq_compares_current (x y : _iterator) :
  (op_eq x y = true ↔ current x = current y) ∧
  op_neq x y = negb (op_eq x y) ∧
  op_eq x y = op_eq (mk_iterator (current x) (pool_ptr y)) y.
Proof.
  unfold op_neq, op_eq. simpl. split_and!; try done.
  apply bool_decide_eq_true.
Qed.

(** C9: after [a = b] the iterator [a] has the current handle of [b] and
    still points to its own pool: [*a] and [++a] are [value] and [next]
    of that handle in the pool [a] was built over. *)
Theorem iterator_assign_keeps_pool (a b : _iterator) (σ : heap) :
  current (op_assign a b) = current b ∧
  pool_ptr (op_assign a b) = pool_ptr a ∧
  deref (op_assign a b) σ = on (pool_ptr a) (value (current b)) σ ∧
  incr (op_assign a b) σ
  = on (pool_ptr a)
       (c ← next (current b) ; mret (mk_iterator c (pool_ptr a))) σ.
Proof. done. Qed.

Lemma push_at_grow bits val head p :
  free_nodes p = 0 →
  push_at bits val head p
  = Done (to_stack_type bits (size p + 1)) (appended p (mk_node val head)).
Proof.
  intros Hf.
  unfold push_at, _push_at, mbind, M_bind, get_free_nodes, to_stack_type.
  rewrite Hf. simpl. unfold pool_size, appended, size. simpl.
  do 2 f_equal. unfold vec_size. simpl. rewrite length_app. simpl. lia.
Qed.

Lemma push_at_reuse bits val head p :
  free_nodes p ≠ 0 → push_at bits val head p = push val head p.
Proof.
  intros Hf. unfold push_at, _push_at, push, _push.
  unfold mbind at 1 7, M_bind at 1 7, get_free_nodes, empty, end_.
  by rewrite bool_decide_eq_false_2.
Qed.

(** C10, as amended: [push] returns the sentinel in one case only: the
    free list is empty and the new length of the vector is a multiple of
    [2 ^ bits], so that its conversion to the handle type is zero.  As
    long as the new length fits the handle type, which it always does at
    the default [std::size_t], the handle returned is not the sentinel
    ([empty] is false on it) and [push] at that width is the [push] of
    this development.  Apart from returning, [push] can only run into the
    out-of-bounds access, when the free-list head lies outside the
    vector; it never fails a check. *)
Theorem push_returns_sentinel_only_on_wrap (bits : N) (v : T)
    (h : stack_type) (p : stack_pool) :
  match push_at bits v h p with
  | Done h' _ =>
      (h' = end_ ↔ free_nodes p = end_ ∧ (size p + 1) mod 2 ^ bits = 0) ∧
      (size p + 1 < 2 ^ bits →
       h' ≠ end_ ∧ empty h' = false ∧ push_at bits v h p = push v h p)
  | Undefined => free_nodes p ≠ end_ ∧ size p < free_nodes p
  | Failed _ _ | OutOfFuel => False
  end.
Proof.
  destruct (decide (free_nodes p = end_)) as [Hf|Hf].
  - rewrite push_at_grow by done. unfold to_stack_type. split.
    + split; [by intros ?|by intros [_ ?]].
    + intros Hfit. rewrite N.mod_small by done.
      rewrite push_grow by done. unfold empty, end_.
      rewrite bool_decide_eq_false_2 by lia. split; [lia|done].
  - rewrite push_at_reuse by done.
    destruct (nd p (free_nodes p)) as [m|] eqn:Hm.
    + rewrite (push_reuse _ _ _ _ Hf Hm). unfold empty.
      rewrite bool_decide_eq_false_2 by done. split; [|done].
      split; [done|by intros [? _]].
    + rewrite push_undefined by done. split; [done|].
      destruct (decide (free_nodes p ≤ size p)) as [Hle|]; [|lia].
      destruct (nd_in_range _ _ Hf Hle) as [? ?]. congruence.
Qed.

(** * Further properties of the member functions *)

(** ** Helper lemmas *)

Lemma upd_pop_push p h a b :
  with_free (upd (with_free (upd p h a) h) h b) (free_nodes p) = upd p h b.
Proof. unfold with_free, upd. simpl. by rewrite list_insert_insert_eq. Qed.

(** A push leaves every chain that avoids the free list as it was, and
    hands out a node outside of it. *)
Lemma push_keeps_chain val head p fl h' p' b lb :
  chain p (free_nodes p) fl →
  push val head p = Done h' p' →
  chain p b lb →
  (∀ x, x ∈ lb.*1 → x ∉ fl.*1) →
  chain p' b lb ∧ h' ∉ lb.*1.
Proof.
  intros Hfl Hpush Hb Hdisj.
  destruct (push_spec val head p fl Hfl)
    as (h1 & p1 & Hpush1 & _ & _ & _ & _ & Hframe & Hcase).
  rewrite Hpush in Hpush1. injection Hpush1 as <- <-.
  assert (h' ∉ lb.*1) as Hn.
  { intros Hin. destruct fl as [|e fl'].
    - destruct Hcase as [-> _].
      pose proof (chain_in_range _ _ _ _ Hb Hin) as [_ ?]. lia.
    - destruct Hcase as [-> _]. apply (Hdisj _ Hin). simpl. by left. }
  split; [by eapply chain_frame_one|done].
Qed.

(** ** pop and push on one stack *)

(** X1: popping a non-empty stack and pushing onto what is left reuses
    the popped node: [push(v, pop(h))] returns [h] again, and the pool
    it leaves is the original one with the value at [h] replaced by [v];
    the links and the free-list head are as before. *)
Theorem pop_then_push_overwrites_top (v : T) (h : stack_type)
    (p : stack_pool) (n : node_t) :
  h ≠ end_ →
  nd p h = Some n →
  ∃ p1,
    pop h p = Done (node_next n) p1 ∧
    free_nodes p1 = h ∧
    push v (node_next n) p1 = Done h (upd p h (mk_node v (node_next n))).
Proof.
  intros Hh Hn. eexists. split; [by apply pop_run|]. split; [done|].
  set (p1 := with_free (upd p h (mk_node (node_value n) (free_nodes p))) h).
  assert (Hn1 : nd p1 (free_nodes p1)
                = Some (mk_node (node_value n) (free_nodes p))).
  { unfold p1. simpl. rewrite nd_with_free.
    apply nd_upd_eq; [done|by eexists]. }
  rewrite (push_reuse v (node_next n) p1 _ Hh Hn1). unfold p1. simpl.
  by rewrite upd_pop_push.
Qed.

(** X2: [pop] removes exactly the top element.  For a stack whose chain
    is [(h, v) :: l] and which shares no node with the free list, [pop]
    returns the head of [l]; iterating from it yields the values of [l];
    the popped node keeps its value, is linked to the old free-list head
    and is the new free-list head; size and capacity do not change. *)
Theorem pop_removes_top (this : addr) (p : stack_pool) (h : stack_type)
    (v : T) (l fl : list (stack_type * T)) :
  chain p h ((h, v) :: l) →
  chain p (free_nodes p) fl →
  h ∉ fl.*1 →
  ∃ h' p',
    pop h p = Done h' p' ∧
    chain p' h' l ∧
    (∀ fuel, (length l < fuel)%nat →
       traverse this fuel h' p' = Done l.*2 p') ∧
    nd p' h = Some (mk_node v (free_nodes p)) ∧
    free_nodes p' = h ∧
    chain p' (free_nodes p') ((h, v) :: fl) ∧
    size p' = size p ∧
    capacity p' = capacity p.
Proof.
  intros Hc Hfl Hnotin.
  destruct (pop_spec p h v l fl Hc Hfl Hnotin)
    as (h' & p' & Hpop & Hl & Hfl' & _ & Hsize).
  inversion Hc as [|? ? nx ? Hh Hn _]; subst.
  rewrite (pop_run _ _ _ Hh Hn) in Hpop. injection Hpop as <- <-.
  eexists _, _. split; [by apply pop_run|]. split_and!; try done.
  - intros fuel Hfuel. by apply traverse_chain.
  - simpl. rewrite nd_with_free. apply nd_upd_eq; [done|by eexists].
Qed.

(** X3: [push] puts its value on top.  For a stack with chain [l] that
    shares no node with the free list [fl], [push(v, h)] returns a handle
    that is not a node of [l]: the first node of [fl], or the new size
    when [fl] is empty.  The chain from it is the new node followed by
    [l], iterating from it yields [v] and then the old values, and the
    free list has lost its first node. *)
Theorem push_prepends_value (this : addr) (v : T) (h : stack_type)
    (p : stack_pool) (l fl : list (stack_type * T)) :
  chain p (free_nodes p) fl →
  chain p h l →
  (∀ x, x ∈ l.*1 → x ∉ fl.*1) →
  ∃ h' p',
    push v h p = Done h' p' ∧
    h' = default (size p + 1) (head fl.*1) ∧
    (h' ∉ l.*1) ∧
    chain p' h' ((h', v) :: l) ∧
    (∀ fuel, (S (length l) < fuel)%nat →
       traverse this fuel h' p' = Done (v :: l.*2) p') ∧
    chain p' (free_nodes p') (tail fl).
Proof.
  intros Hfl Hl Hdisj.
  destruct (push_spec v h p fl Hfl)
    as (h' & p' & Hpush & Hh' & Hnode & Hfl' & _ & _ & Hcase).
  destruct (push_keeps_chain v h p fl h' p' h l Hfl Hpush Hl Hdisj)
    as [Hl' Hnotin].
  assert (Hc : chain p' h' ((h', v) :: l)) by by econstructor.
  exists h', p'. split_and!; try done.
  - destruct fl as [|e fl']; simpl; by destruct Hcase as [-> _].
  - intros fuel Hfuel.
    apply (traverse_chain this p' h' ((h', v) :: l) fuel Hc). simpl. lia.
Qed.

(** ** Independence of stacks *)

(** X4: pushing onto any head leaves a stack that shares no node with
    the free list as it was: same chain, same values on iteration. *)
Theorem push_leaves_other_stack (this : addr) (v : T) (a b : stack_type)
    (p : stack_pool) (lb fl : list (stack_type * T)) :
  chain p (free_nodes p) fl →
  chain p b lb →
  (∀ x, x ∈ lb.*1 → x ∉ fl.*1) →
  ∃ h' p',
    push v a p = Done h' p' ∧
    chain p' b lb ∧
    ∀ fuel, (length lb < fuel)%nat →
      traverse this fuel b p' = Done lb.*2 p'.
Proof.
  intros Hfl Hb Hdisj.
  destruct (push_spec v a p fl Hfl) as (h' & p' & Hpush & _).
  destruct (push_keeps_chain v a p fl h' p' b lb Hfl Hpush Hb Hdisj)
    as [Hb' _].
  exists h', p'. split_and!; try done.
  intros fuel Hfuel. by apply traverse_chain.
Qed.

(** X5: popping the in-bounds handle [a] writes node [a] only, so a
    stack that does not go through [a] keeps its chain and its values. *)
Theorem pop_leaves_other_stack (this : addr) (a b : stack_type)
    (p : stack_pool) (lb : list (stack_type * T)) :
  a ≠ end_ →
  a ≤ size p →
  chain p b lb →
  a ∉ lb.*1 →
  ∃ h' p',
    pop a p = Done h' p' ∧
    chain p' b lb ∧
    ∀ fuel, (length lb < fuel)%nat →
      traverse this fuel b p' = Done lb.*2 p'.
Proof.
  intros Ha Hle Hb Hnotin. destruct (nd_in_range p a Ha Hle) as [n Hn].
  eexists _, _. split; [by apply pop_run|].
  assert (Hb' : chain (with_free (upd p a (mk_node (node_value n)
                         (free_nodes p))) a) b lb).
  { eapply chain_frame_one; [|done..].
    intros x Hx Hne. rewrite nd_with_free. by apply nd_upd_ne. }
  split; [done|]. intros fuel Hfuel. by apply traverse_chain.
Qed.

(** ** Reuse and growth *)

Lemma pushes_grow vs pick : ∀ acc p,
  free_nodes p = end_ →
  ∃ p',
    pushes vs pick acc p
    = Done (acc ++ (N.of_nat <$> seq (S (N.to_nat (size p))) (length vs))) p' ∧
    free_nodes p' = end_ ∧
    size p' = size p + N.of_nat (length vs) ∧
    (∀ x, x ≠ end_ → x ≤ size p → nd p' x = nd p x) ∧
    (size p + N.of_nat (length vs) ≤ capacity p → capacity p' = capacity p).
Proof.
  induction vs as [|v vs IH]; intros acc p Hf.
  - exists p. simpl. rewrite app_nil_r. split_and!; try done. lia.
  - pose proof (push_grow v (pick acc) p Hf) as Hpush.
    set (p1 := appended p (mk_node v (pick acc))) in *.
    assert (Hsize1 : size p1 = size p + 1) by apply size_appended.
    destruct (IH (acc ++ [size p + 1]) p1 Hf)
      as (p' & Hrun & Hf' & Hsize & Hold & Hcap).
    exists p'. simpl. rewrite (bind_Done _ _ _ _ _ Hpush).
    rewrite Hsize1 in Hrun, Hsize. rewrite <- app_assoc in Hrun. simpl in Hrun.
    replace (N.to_nat (size p + 1)) with (S (N.to_nat (size p))) in Hrun by lia.
    replace (N.of_nat (S (N.to_nat (size p)))) with (size p + 1) by lia.
    split_and!; [done|done|lia| |].
    + intros x Hx Hle. rewrite Hold by (done || lia).
      by apply nd_appended_old.
    + intros Hle. rewrite Hcap.
      * unfold p1, capacity, appended, vec_capacity, vec_push_back. simpl.
        fold (size p). rewrite (proj2 (N.ltb_lt _ _)); [done|].
        unfold capacity, vec_capacity in Hle. lia.
      * unfold p1 at 2. unfold capacity, appended, vec_capacity,
          vec_push_back. simpl. fold (size p).
        unfold capacity, vec_capacity in Hle.
        rewrite (proj2 (N.ltb_lt _ _)) by lia. lia.
Qed.

(** X6: pushes take the free nodes in the order of the free list.  When
    the free list is the chain [fl], the next [k ≤ length fl] pushes
    return the handles of the first [k] nodes of [fl], in that order,
    whatever heads they push onto, and size and capacity stay. *)
Theorem pushes_reuse_in_free_list_order (vs : list T)
    (pick : list stack_type → stack_type) (p : stack_pool)
    (fl : list (stack_type * T)) :
  chain p (free_nodes p) fl →
  (length vs ≤ length fl)%nat →
  ∃ p',
    pushes vs pick [] p = Done (take (length vs) fl.*1) p' ∧
    chain p' (free_nodes p') (drop (length vs) fl) ∧
    size p' = size p ∧
    capacity p' = capacity p.
Proof.
  intros Hfl Hlen.
  destruct (pushes_reuse_handles vs pick [] p fl Hfl Hlen)
    as (p' & Hrun & Hcap & Hsize & Hfl').
  by exists p'.
Qed.

(** X7: the nodes of a freed stack are the first to be reused, from its
    top down.  After [free_stack(h)] on a non-empty stack with chain [l],
    the next [k ≤ length l] pushes return the first [k] handles of [l]
    and the vector neither grows nor reallocates. *)
Theorem free_stack_then_pushes_reuse (this : addr) (fuel : nat)
    (vs : list T) (pick : list stack_type → stack_type)
    (p : stack_pool) (h : stack_type) (l fl : list (stack_type * T)) :
  h ≠ end_ →
  chain p h l →
  chain p (free_nodes p) fl →
  (∀ x, x ∈ l.*1 → x ∉ fl.*1) →
  (length l ≤ fuel)%nat →
  (length vs ≤ length l)%nat →
  ∃ p1 p2,
    free_stack this fuel h p = Done end_ p1 ∧
    pushes vs pick [] p1 = Done (take (length vs) l.*1) p2 ∧
    size p2 = size p ∧
    capacity p2 = capacity p.
Proof.
  intros Hh Hl Hfl Hdisj Hfuel Hlen.
  destruct (chain_last_exists p h l Hl Hh) as (e & Hlast & He).
  pose proof (free_stack_run this fuel p h l e Hh Hl Hlast Hfuel) as Hfree.
  set (p1 := with_free (upd p e.1 (mk_node e.2 (free_nodes p))) h) in *.
  assert (Hfl1 : chain p1 (free_nodes p1) (l ++ fl)).
  { unfold p1. simpl.
    eapply (chain_frame (upd p e.1 (mk_node e.2 (free_nodes p)))); [done|].
    apply chain_splice; [done..|].
    apply Hdisj. apply list_elem_of_fmap_2. by apply last_Some_elem_of. }
  destruct (pushes_reuse_handles vs pick [] p1 (l ++ fl) Hfl1)
    as (p2 & Hrun & Hcap & Hsize & _).
  { rewrite length_app. lia. }
  exists p1, p2. split; [done|]. split_and!.
  - rewrite Hrun. simpl. f_equal.
    rewrite fmap_app, take_app_le by (rewrite length_fmap; lia). done.
  - rewrite Hsize. unfold p1. apply size_upd.
  - by rewrite Hcap.
Qed.

Lemma capacity_ctor g n : capacity (T:=T) (stack_pool_ctor g n) = n.
Proof.
  unfold capacity, stack_pool_ctor, vec_capacity, vec_reserve. simpl.
  destruct (N.ltb_spec 0 n); simpl; [done|lia].
Qed.

(** X8: [stack_pool(n)] with [n] beyond the [max_size()] of the vector
    throws [std::length_error].  Within it, the constructed pool is
    empty with a capacity of at least [n], and its first [k ≤ n] pushes
    return the handles 1, 2, ..., [k] in order without any reallocation:
    the capacity stays what the constructor left, the size is [k] and
    the free list is still empty. *)
Theorem fresh_pool_pushes_sequential (max_size : size_type) (g : N → N)
    (n : size_type) (vs : list T) (pick : list stack_type → stack_type) :
  N.of_nat (length vs) ≤ n →
  (max_size < n →
   construct (T:=T) max_size g n
   = Failed length_error_msg (stack_pool_members g)) ∧
  (n ≤ max_size →
   ∃ p0 p',
     construct max_size g n = Done () p0 ∧
     size p0 = 0 ∧
     free_nodes p0 = end_ ∧
     n ≤ capacity p0 ∧
     pushes vs pick [] p0 = Done (N.of_nat <$> seq 1 (length vs)) p' ∧
     size p' = N.of_nat (length vs) ∧
     free_nodes p' = end_ ∧
     capacity p' = capacity p0).
Proof.
  intros Hle. split; [apply reserve_checked_throws|]. intros Hfit.
  destruct (pushes_grow vs pick [] (stack_pool_ctor g n) eq_refl)
    as (p' & Hrun & Hf & Hsize & _ & Hcap).
  assert (Hsize0 : size (T:=T) (stack_pool_ctor g n) = 0).
  { unfold size, stack_pool_ctor, vec_size, vec_reserve. simpl.
    by destruct (0 <? n). }
  rewrite Hsize0 in Hrun, Hsize, Hcap. rewrite capacity_ctor in Hcap.
  exists (stack_pool_ctor g n), p'.
  split; [by apply construct_fits|]. rewrite capacity_ctor.
  split_and!; [done|done|lia|done|lia|done|by apply Hcap].
Qed.


(** ** The client's runs *)

(** X10: the pool invariant holds in every state a client reaches from a
    fresh pool: the free list is a chain ending in the sentinel, every
    head the client holds starts such a chain sharing no node with the
    free list, and the chains of two different variables share no node. *)
Theorem reachable_pool_invariant (this : addr) (g : N → N) (n : size_type)
    (ops : list op) (hs : list stack_type) (p : stack_pool) :
  exec_all this ops [] (stack_pool_ctor g n) = Done hs p →
  ∃ fl,
    chain p (free_nodes p) fl ∧
    ∀ i h, hs !! i = Some h →
      ∃ l, chain p h l ∧
           (∀ x, x ∈ l.*1 → x ∉ fl.*1) ∧
           ∀ j h' l', j ≠ i → hs !! j = Some h' → chain p h' l' →
                      ∀ x, x ∈ l.*1 → x ∉ l'.*1.
Proof.
  intros Hrun.
  pose proof (wf_exec_all this ops _ _ _ _ (wf_ctor g n) Hrun)
    as ([fl Hfl] & Hlive & Hsep).
  exists fl. split; [done|]. intros i h Hi.
  destruct (Hlive i h Hi) as [[l Hl] Hsf].
  exists l. split; [done|]. split; [by apply Hsf|].
  intros j h' l' Hne Hj Hl'.
  by apply (Hsep i j h h' ltac:(done) Hi Hj).
Qed.





(** A run of the client with the length check that returns is a run of
    the client without it: what holds of the states [exec_all] reaches
    holds of the states the checked client reaches. *)
Lemma exec_checked_Done max_size this o hs p hs' p' :
  exec_checked max_size this o hs p = Done hs' p' →
  exec this o hs p = Done hs' p'.
Proof.
  destruct o as [|i v|i|i fuel|m]; try done. simpl.
  destruct (reserve_checked_cases max_size m p) as [[_ Hr]|[_ Hr]];
    unfold mbind, M_bind; by rewrite Hr.
Qed.

Lemma exec_all_checked_Done max_size this ops : ∀ hs p hs' p',
  exec_all_checked max_size this ops hs p = Done hs' p' →
  exec_all this ops hs p = Done hs' p'.
Proof.
  induction ops as [|o ops IH]; intros hs p hs' p'; [done|]. simpl.
  destruct (exec_checked max_size this o hs p) as [hs1 p1| | |] eqn:Hrun;
    unfold mbind at 1, M_bind at 1; rewrite Hrun; try done.
  intros Hrest. apply exec_checked_Done in Hrun.
  rewrite (bind_Done _ _ _ _ _ Hrun). by apply IH.
Qed.

Lemma run_client_Done max_size g n this ops hs p :
  run_client max_size g n this ops = Done hs p →
  n ≤ max_size ∧ exec_all this ops [] (stack_pool_ctor g n) = Done hs p.
Proof.
  unfold run_client.
  destruct (reserve_checked_cases max_size n (stack_pool_members (T:=T) g))
    as [[Hn Hr]|[_ Hr]]; unfold mbind at 1, M_bind at 1; rewrite Hr; [|done].
  simpl. intros Hrun. split; [done|]. by apply (exec_all_checked_Done max_size).
Qed.


(** ** Reading does not write *)

Lemma keeps_bind {A B} (m : Pool A) (k : A → Pool B) p :
  keeps_state (m p) p → (∀ a, keeps_state (k a p) p) →
  keeps_state ((m ≫= k) p) p.
Proof.
  intros Hm Hk. unfold mbind, M_bind.
  destruct (m p) as [a p'|msg p'| |]; simpl in *; subst; auto.
Qed.

Lemma keeps_node x p : keeps_state (node x p) p.
Proof. rewrite node_run. by destruct (nd p x). Qed.

Lemma keeps_next x p : keeps_state (next x p) p.
Proof. apply keeps_bind; [apply keeps_node|done]. Qed.

Lemma keeps_value x p : keeps_state (value x p) p.
Proof.
  apply keeps_bind; [unfold AP_ERROR; by destruct (negb _)|].
  intros _. apply keeps_bind; [apply keeps_node|done].
Qed.

Lemma keeps_op_incr it p : keeps_state (op_incr it p) p.
Proof. apply keeps_bind; [apply keeps_next|done]. Qed.

Lemma keeps_get_last_loop fuel : ∀ first p,
  keeps_state (get_last_loop fuel first p) p.
Proof.
  induction fuel as [|fuel IH]; intros first p; [done|]. simpl.
  apply keeps_bind; [apply keeps_next|]. intros nx.
  destruct (negb _); [|done].
  apply keeps_bind; [apply keeps_op_incr|]. intros it. apply IH.
Qed.

Lemma keeps_traverse_loop fuel : ∀ it stop p,
  keeps_state (traverse_loop fuel it stop p) p.
Proof.
  induction fuel as [|fuel IH]; intros it stop p; [done|]. simpl.
  destruct (op_neq it stop); [|done].
  apply keeps_bind; [apply keeps_value|]. intros v.
  apply keeps_bind; [apply keeps_op_incr|]. intros it'.
  apply keeps_bind; [apply IH|done].
Qed.

(** X12: reading never writes.  However they end, [value], [next], the
    walk of [get_last], [*it], [++it] and a whole iteration over a stack
    leave the pool exactly as it was: when a result or a failed check
    comes with a state, it is the initial state. *)
Theorem reading_keeps_the_pool (this : addr) (fuel : nat) (h : stack_type)
    (it : _iterator) (p : stack_pool) :
  keeps_state (value h p) p ∧
  keeps_state (next h p) p ∧
  keeps_state (get_last this fuel h p) p ∧
  keeps_state (op_deref it p) p ∧
  keeps_state (op_incr it p) p ∧
  keeps_state (op_post_incr it p) p ∧
  keeps_state (traverse this fuel h p) p.
Proof.
  split_and!.
  - apply keeps_value.
  - apply keeps_next.
  - apply keeps_get_last_loop.
  - apply keeps_value.
  - apply keeps_op_incr.
  - apply keeps_bind; [apply keeps_op_incr|done].
  - apply keeps_traverse_loop.
Qed.

(** ** What the checks cover *)

Lemma nd_out_of_range p x : x ≠ end_ → size p < x → nd p x = None.
Proof.
  intros Hx Hlt. destruct (nd p x) as [n|] eqn:Hn; [|done].
  pose proof (nd_Some_range _ _ _ Hx Hn). lia.
Qed.

Lemma pop_undefined x p :
  x ≠ end_ → nd p x = None → pop x p = Undefined.
Proof.
  intros Hx Hn. unfold pop.
  erewrite bind_Done; last first.
  { unfold AP_ERROR, empty. by rewrite bool_decide_eq_false_2. }
  rewrite (bind_Done _ _ p (free_nodes p) p) by done.
  apply bind_Undefined. unfold move_head. apply bind_Undefined.
  by apply next_undefined.
Qed.

(** X13: [value] checks for the sentinel and nothing else.  On the
    sentinel it fails its check; on a handle within the size of the
    vector it returns the value stored there, whether or not that node
    is part of a stack; on a non-zero handle past the size it is an
    out-of-bounds access. *)
Theorem value_checks_only_the_sentinel (h : stack_type) (p : stack_pool) :
  (h = end_ → value h p = Failed value_msg p) ∧
  (h ≠ end_ → h ≤ size p →
   ∃ n, nd p h = Some n ∧ value h p = Done (node_value n) p) ∧
  (h ≠ end_ → size p < h → value h p = Undefined).
Proof.
  split_and!.
  - by intros ->.
  - intros Hh Hle. destruct (nd_in_range p h Hh Hle) as [n Hn].
    exists n. split; [done|]. by apply value_run.
  - intros Hh Hlt. pose proof (nd_out_of_range p h Hh Hlt) as Hn.
    unfold value, AP_ERROR, empty, mbind, M_bind.
    rewrite bool_decide_eq_false_2 by done. simpl. by rewrite node_run, Hn.
Qed.

(** X14: [pop] checks for the sentinel and nothing else.  On the
    sentinel it fails its check with the pool untouched; on any handle
    within the size of the vector it moves that node to the front of the
    free list and returns its old [next], without looking at whether the
    node was the top of a stack; on a non-zero handle past the size it is
    an out-of-bounds access. *)
Theorem pop_checks_only_the_sentinel (x : stack_type) (p : stack_pool) :
  (x = end_ → pop x p = Failed pop_msg p) ∧
  (x ≠ end_ → x ≤ size p →
   ∃ n, nd p x = Some n ∧
        pop x p
        = Done (node_next n)
               (with_free (upd p x (mk_node (node_value n) (free_nodes p)))
                          x)) ∧
  (x ≠ end_ → size p < x → pop x p = Undefined).
Proof.
  split_and!.
  - by intros ->.
  - intros Hx Hle. destruct (nd_in_range p x Hx Hle) as [n Hn].
    exists n. split; [done|]. by apply pop_run.
  - intros Hx Hlt. apply pop_undefined; [done|]. by apply nd_out_of_range.
Qed.

(** ** Storage only grows *)

Lemma push_size val head p h' p' :
  push val head p = Done h' p' → size p ≤ size p' ≤ size p + 1.
Proof.
  intros Hpush. destruct (decide (free_nodes p = end_)) as [Hf|Hf].
  - rewrite push_grow in Hpush by done. injection Hpush as <- <-.
    rewrite size_appended. lia.
  - destruct (nd p (free_nodes p)) as [n|] eqn:Hn.
    + rewrite (push_reuse _ _ _ _ Hf Hn) in Hpush. injection Hpush as <- <-.
      change (size (with_free ?q _)) with (size q). rewrite size_upd. lia.
    + by rewrite push_undefined in Hpush.
Qed.

Lemma pop_size x p h' p' : pop x p = Done h' p' → size p' = size p.
Proof.
  intros Hpop. destruct (decide (x = end_)) as [->|Hx]; [done|].
  destruct (nd p x) as [n|] eqn:Hn.
  - rewrite (pop_run _ _ _ Hx Hn) in Hpop. injection Hpop as <- <-.
    apply size_upd.
  - by rewrite pop_undefined in Hpop.
Qed.

Lemma set_next_undefined x y p : nd p x = None → set_next x y p = Undefined.
Proof. intros H. unfold set_next, mbind, M_bind. by rewrite node_run, H. Qed.

Lemma free_stack_size this fuel x p h' p' :
  free_stack this fuel x p = Done h' p' → size p' = size p.
Proof.
  unfold free_stack. destruct (empty x); [by intros [= <- <-]|].
  pose proof (keeps_get_last_loop fuel (begin this x) p) as Hkeep.
  change (keeps_state (get_last this fuel x p) p) in Hkeep.
  destruct (get_last this fuel x p) as [tmp p1|msg p1| |] eqn:Hlast;
    simpl in Hkeep; subst;
    [rewrite (bind_Done _ _ _ _ _ Hlast)
    |by rewrite (bind_Failed _ _ _ _ _ Hlast)
    |by rewrite (bind_Undefined _ _ _ Hlast)
    |by rewrite (bind_OutOfFuel _ _ _ Hlast)].
  rewrite (bind_Done _ _ p (free_nodes p) p) by done.
  destruct (nd p tmp) as [n|] eqn:Hn.
  - rewrite (bind_Done _ _ _ _ _ (set_next_run _ (free_nodes p) _ _ Hn)).
    intros [= <- <-]. apply size_upd.
  - by rewrite (bind_Undefined _ _ _ (set_next_undefined _ _ _ Hn)).
Qed.

Lemma exec_size this o hs p hs' p' :
  exec this o hs p = Done hs' p' → size p ≤ size p' ≤ size p + 1.
Proof.
  destruct o as [|i v|i|i fuel|n]; simpl.
  - intros [= <- <-]. lia.
  - destruct (hs !! i) as [h|]; [|intros [= <- <-]; lia].
    destruct (push v h p) as [h' p1|msg p1| |] eqn:Hrun;
      unfold mbind, M_bind; rewrite Hrun; try done.
    intros [= <- <-]. by eapply push_size.
  - destruct (hs !! i) as [h|]; [|intros [= <- <-]; lia].
    destruct (pop h p) as [h' p1|msg p1| |] eqn:Hrun;
      unfold mbind, M_bind; rewrite Hrun; try done.
    intros [= <- <-]. rewrite (pop_size _ _ _ _ Hrun). lia.
  - destruct (hs !! i) as [h|]; [|intros [= <- <-]; lia].
    destruct (free_stack this fuel h p) as [h' p1|msg p1| |] eqn:Hrun;
      unfold mbind, M_bind; rewrite Hrun; try done.
    intros [= <- <-]. rewrite (free_stack_size _ _ _ _ _ _ Hrun). lia.
  - unfold mbind, M_bind. simpl. intros [= <- <-].
    unfold size, vec_size, vec_reserve. simpl.
    destruct (cap (pool p) <? n); simpl; lia.
Qed.

(** X15: the storage only grows, and by at most one node per operation.
    Whatever the client does (pushes, pops, free_stack, reserve, on any
    heads and from any pool state), a run that returns leaves the size
    between the old size and the old size plus the number of operations;
    so every handle that was within the vector still is. *)
Theorem storage_never_shrinks (this : addr) (ops : list op)
    (hs hs' : list stack_type) (p p' : stack_pool) :
  exec_all this ops hs p = Done hs' p' →
  size p ≤ size p' ≤ size p + N.of_nat (length ops) ∧
  ∀ x n, x ≠ end_ → nd p x = Some n → is_Some (nd p' x).
Proof.
  intros Hrun.
  assert (size p ≤ size p' ≤ size p + N.of_nat (length ops)) as Hsize.
  { revert hs p Hrun. induction ops as [|o ops IH]; intros hs p; simpl.
    - intros [= <- <-]. lia.
    - destruct (exec this o hs p) as [hs1 p1|msg p1| |] eqn:Hstep;
        unfold mbind, M_bind; rewrite Hstep; try done.
      intros Hrest. apply IH in Hrest. apply exec_size in Hstep. lia. }
  split; [done|]. intros x n Hx Hn. apply nd_in_range; [done|].
  pose proof (nd_Some_range _ _ _ Hx Hn). lia.
Qed.

(** ** Writing through value *)

Lemma chain_set_value p h v n a l :
  h ≠ end_ → nd p h = Some n → chain p a l →
  chain (upd p h (mk_node v (node_next n))) a
        ((λ e, if decide (e.1 = h) then (h, v) else e) <$> l).
Proof.
  intros Hh Hn Hc. induction Hc as [|x w nx l Hx Hnx _ IH]; [constructor|].
  rewrite fmap_cons. simpl. case_decide as Heq.
  - subst x. rewrite Hn in Hnx. injection Hnx as ->.
    econstructor; [done| |done]. simpl.
    apply nd_upd_eq; [done|by eexists].
  - econstructor; [done| |done]. by rewrite nd_upd_ne.
Qed.

(** X16: writing through the reference that [value] returns changes one
    value and nothing else.  For a non-zero handle [h] within the
    vector, [value(h) = v] returns; afterwards [value(h)] reads [v],
    [next(h)] and the free-list head are as before, every other node is
    as before, and every stack keeps its chain of handles, with the value
    at [h] (if the stack goes through [h]) replaced by [v]. *)
Theorem value_write_then_read (this : addr) (h : stack_type) (v : T)
    (p : stack_pool) :
  h ≠ end_ →
  h ≤ size p →
  ∃ n p',
    nd p h = Some n ∧
    set_value h v p = Done () p' ∧
    value h p' = Done v p' ∧
    next h p' = Done (node_next n) p' ∧
    free_nodes p' = free_nodes p ∧
    (∀ x, x ≠ end_ → x ≠ h → nd p' x = nd p x) ∧
    ∀ a l, chain p a l →
      let l' := (λ e, if decide (e.1 = h) then (h, v) else e) <$> l in
      chain p' a l' ∧ l'.*1 = l.*1 ∧
      ∀ fuel, (length l < fuel)%nat →
        traverse this fuel a p' = Done l'.*2 p'.
Proof.
  intros Hh Hle. destruct (nd_in_range p h Hh Hle) as [n Hn].
  set (p' := upd p h (mk_node v (node_next n))).
  assert (Hn' : nd p' h = Some (mk_node v (node_next n))).
  { apply nd_upd_eq; [done|by eexists]. }
  exists n, p'. split_and!; try done.
  - by apply set_value_run.
  - by rewrite (value_run _ _ _ Hh Hn').
  - by rewrite (next_run _ _ _ Hn').
  - intros x Hx Hne. by apply nd_upd_ne.
  - intros a l Hc. cbv zeta.
    pose proof (chain_set_value p h v n a l Hh Hn Hc) as Hc'.
    split_and!; [done| |].
    + rewrite <- list_fmap_compose. apply list_fmap_ext.
      intros i e _. simpl. by case_decide.
    + intros fuel Hfuel. apply traverse_chain; [done|].
      by rewrite length_fmap.
Qed.

(** ** Stepping an iterator *)

Lemma advance_chain this p h l :
  chain p h l → ∀ k, (k ≤ length l)%nat →
  advance k (mk_iterator h this) p
  = Done (mk_iterator (default end_ (l.*1 !! k)) this) p.
Proof.
  induction 1 as [|x v nx l Hx Hn _ IH]; intros k Hk.
  - destruct k; [done|simpl in Hk; lia].
  - destruct k as [|k]; [done|]. simpl.
    erewrite bind_Done; [|by apply op_incr_run].
    simpl. apply IH. simpl in Hk. lia.
Qed.

(** X17: stepping an iterator through a stack.  For a stack with chain
    [l], [k] applications of [++] to [begin(h)] give the iterator at the
    [k]-th node of [l], which differs from [end(h)], for every
    [k < length l]; and [length l] applications give exactly [end(h)]. *)
Theorem advance_reaches_end_after_length (this : addr) (p : stack_pool)
    (h : stack_type) (l : list (stack_type * T)) :
  chain p h l →
  advance (length l) (begin this h) p = Done (end_iter this h) p ∧
  ∀ k x, l.*1 !! k = Some x →
    advance k (begin this h) p = Done (begin this x) p ∧
    op_neq (begin this x) (end_iter this h) = true.
Proof.
  intros Hc. split_and!.
  - unfold begin, end_iter.
    rewrite (advance_chain this p h l Hc (length l)) by done.
    rewrite (proj2 (lookup_ge_None _ _)); [done|]. by rewrite length_fmap.
  - intros k x Hk. pose proof (lookup_lt_Some _ _ _ Hk) as Hlt.
    rewrite length_fmap in Hlt. split.
    + unfold begin.
      rewrite (advance_chain this p h l Hc k) by lia. by rewrite Hk.
    + unfold op_neq, op_eq, begin, end_iter. simpl.
      rewrite bool_decide_eq_false_2; [done|].
      apply (chain_in_range _ _ _ _ Hc). by eapply list_elem_of_lookup_2.
Qed.

(** ** Freeing a stack twice *)

(** In a set of nodes closed under [next] and without the sentinel, the
    walk of [get_last] never finds a tail. *)
Lemma get_last_loop_cycle (nodes : list stack_type) p :
  (∀ x, x ∈ nodes →
        x ≠ end_ ∧ ∃ n, nd p x = Some n ∧ node_next n ∈ nodes) →
  ∀ fuel x ptr, x ∈ nodes →
    get_last_loop fuel (mk_iterator x ptr) p = OutOfFuel.
Proof.
  intros Hclosed. induction fuel as [|fuel IH]; intros x ptr Hx; [done|].
  destruct (Hclosed x Hx) as (_ & n & Hn & Hnext).
  destruct (Hclosed _ Hnext) as [Hnz _].
  simpl. unfold op_addr. simpl.
  rewrite (bind_Done _ _ _ _ _ (next_run _ _ _ Hn)).
  rewrite bool_decide_eq_false_2 by done. simpl.
  erewrite bind_Done; [|by apply op_incr_run]. simpl. by apply IH.
Qed.

Lemma chain_next_in p a l y :
  chain p a l → y ∈ l.*1 →
  ∃ n, nd p y = Some n ∧
       (node_next n ∈ l.*1 ∨ (node_next n = end_ ∧ last l.*1 = Some y)).
Proof.
  induction 1 as [|x v nx l Hx Hn Hc IH]; simpl.
  - by intros ?%elem_of_nil.
  - intros [->|Hin]%elem_of_cons.
    + exists (mk_node v nx). split; [done|]. simpl.
      inversion Hc as [|? w ? l0]; subst; simpl.
      * by right.
      * left. right. by left.
    + destruct (IH Hin) as (n & Hny & Hcase). exists n. split; [done|].
      destruct Hcase as [Hnext|[Hnext Hlast]]; [left; by right|].
      right. split; [done|]. rewrite last_cons.
      change (last (list_fmap _ _ fst l) = Some y) in Hlast.
      by rewrite Hlast.
Qed.

(** X18: [free_stack] keeps no record of what it has freed, so freeing
    a non-empty stack a second time through the same (now stale) handle
    returns as well, and corrupts the free list: its tail is linked back
    to its head.  From then on no chain from [free_nodes] reaches the
    sentinel, and the walk of [get_last] from that handle does not end,
    whatever fuel it is given. *)
Theorem double_free_stack_makes_a_cycle (this : addr) (fuel1 fuel2 : nat)
    (p : stack_pool) (h : stack_type) (l fl : list (stack_type * T)) :
  h ≠ end_ →
  chain p h l →
  chain p (free_nodes p) fl →
  (∀ x, x ∈ l.*1 → x ∉ fl.*1) →
  (length l ≤ fuel1)%nat →
  (length l + length fl ≤ fuel2)%nat →
  ∃ p1 p2,
    free_stack this fuel1 h p = Done end_ p1 ∧
    free_stack this fuel2 h p1 = Done end_ p2 ∧
    free_nodes p2 = h ∧
    (∀ fuel, get_last this fuel (free_nodes p2) p2 = OutOfFuel) ∧
    ¬ ∃ m, chain p2 (free_nodes p2) m.
Proof.
  intros Hh Hl Hfl Hdisj Hfuel1 Hfuel2.
  destruct (chain_last_exists p h l Hl Hh) as (e & Hlast & He).
  pose proof (free_stack_run this fuel1 p h l e Hh Hl Hlast Hfuel1) as Hfree1.
  set (p1 := with_free (upd p e.1 (mk_node e.2 (free_nodes p))) h) in *.
  assert (Hs : chain p1 h (l ++ fl)).
  { unfold p1.
    eapply (chain_frame (upd p e.1 (mk_node e.2 (free_nodes p)))); [done|].
    apply chain_splice; [done..|].
    apply Hdisj. apply list_elem_of_fmap_2. by apply last_Some_elem_of. }
  destruct (chain_last_exists p1 h _ Hs Hh) as (e' & Hlast' & He').
  pose proof (free_stack_run this fuel2 p1 h _ e' Hh Hs Hlast'
                ltac:(rewrite length_app; lia)) as Hfree2.
  set (p2 := with_free (upd p1 e'.1 (mk_node e'.2 (free_nodes p1))) h) in *.
  assert (Hcycle : ∀ fuel, get_last this fuel h p2 = OutOfFuel).
  { intros fuel. unfold get_last, begin.
    apply (get_last_loop_cycle (l ++ fl).*1); last first.
    { destruct (chain_cons_inv _ _ _ Hh Hs) as (v & nx & l' & -> & _).
      simpl. by left. }
    intros x Hx. split; [apply (chain_in_range _ _ _ _ Hs Hx)|].
    destruct (decide (x = e'.1)) as [->|Hne].
    - eexists. split.
      + unfold p2. rewrite nd_with_free.
        apply nd_upd_eq; [done|].
        destruct (chain_next_in _ _ _ _ Hs Hx) as (n & Hn & _). by exists n.
      + simpl. destruct (chain_cons_inv _ _ _ Hh Hs) as (v & nx & l' & -> & _).
        simpl. by left.
    - destruct (chain_next_in _ _ _ _ Hs Hx) as (n & Hn & Hcase).
      exists n. split.
      + unfold p2. rewrite nd_with_free, nd_upd_ne; [done..| |done].
        apply (chain_in_range _ _ _ _ Hs Hx).
      + destruct Hcase as [Hnext|[_ Hlastx]]; [done|].
        rewrite fmap_last, Hlast' in Hlastx. simpl in Hlastx.
        injection Hlastx as Heq. by destruct Hne. }
  exists p1, p2. split_and!; try done.
  intros [m Hm]. change (free_nodes p2) with h in Hm.
  destruct (chain_last_exists p2 h m Hm Hh) as (e2 & Hlast2 & _).
  pose proof (get_last_chain this p2 h m e2 (length m) Hm Hlast2
                ltac:(done)) as Hdone.
  by rewrite Hcycle in Hdone.
Qed.

(** ** No node is lost *)

Lemma covered_replace p p' hs i h h' fl fl' l l' :
  covered p hs →
  hs !! i = Some h →
  chain p (free_nodes p) fl →
  chain p h l →
  chain p' (free_nodes p') fl' →
  chain p' h' l' →
  (∀ k hk lk, k ≠ i → hs !! k = Some hk → chain p hk lk → chain p' hk lk) →
  (∀ x, x ∈ fl.*1 ∨ x ∈ l.*1 → x ∈ fl'.*1 ∨ x ∈ l'.*1) →
  (∀ x, x ≠ end_ → x ≤ size p' → x ≤ size p ∨ x ∈ fl'.*1 ∨ x ∈ l'.*1) →
  covered p' (<[i := h']> hs).
Proof.
  intros Hcov Hi Hfl Hl Hfl' Hl' Hkept Hmove Hnew x Hx Hle.
  assert (Hii : <[i := h']> hs !! i = Some h').
  { apply list_lookup_insert_eq. apply (lookup_lt_Some _ _ _ Hi). }
  assert (Hnow : x ∈ fl'.*1 ∨ x ∈ l'.*1 →
    (∃ fl0, chain p' (free_nodes p') fl0 ∧ x ∈ fl0.*1) ∨
    (∃ j hj lj, <[i := h']> hs !! j = Some hj ∧ chain p' hj lj ∧ x ∈ lj.*1)).
  { intros [Hin|Hin]; [left; by exists fl'|right; by exists i, h', l']. }
  destruct (Hnew x Hx Hle) as [Hold|Hin]; [|by apply Hnow].
  destruct (Hcov x Hx Hold) as [(fl0 & Hfl0 & Hin)|(j & hj & lj & Hj & Hlj & Hin)].
  - rewrite (chain_det _ _ _ _ Hfl0 Hfl) in Hin. apply Hnow, Hmove. by left.
  - destruct (decide (j = i)) as [->|Hne].
    + rewrite Hi in Hj. injection Hj as <-.
      rewrite (chain_det _ _ _ _ Hlj Hl) in Hin. apply Hnow, Hmove. by right.
    + right. exists j, hj, lj. split_and!; [|by apply (Hkept j)|done].
      by rewrite list_lookup_insert_ne.
Qed.

Lemma covered_push p hs i h v h' p' :
  wf p hs → covered p hs → hs !! i = Some h →
  push v h p = Done h' p' → covered p' (<[i := h']> hs).
Proof.
  intros ([fl Hfl] & Hlive & Hsep) Hcov Hi Hpush.
  destruct (Hlive i h Hi) as [[l Hl] Hsf].
  destruct (push_spec v h p fl Hfl)
    as (h1 & p1 & Hpush1 & Hh' & Hnode & Hfl' & _ & _ & Hcase).
  rewrite Hpush in Hpush1. injection Hpush1 as <- <-.
  destruct (push_keeps_chain v h p fl h' p' h l Hfl Hpush Hl
              (Hsf l fl Hl Hfl)) as [Hl' _].
  apply (covered_replace p p' hs i h h' fl (tail fl) l ((h', v) :: l));
    try done.
  - by econstructor.
  - intros k hk lk Hk Hhk Hlk. destruct (Hlive k hk Hhk) as [_ Hsk].
    by apply (push_keeps_chain v h p fl h' p' hk lk Hfl Hpush Hlk
                (Hsk lk fl Hlk Hfl)).
  - intros x [Hin|Hin]; [|right; simpl; by right].
    destruct fl as [|e fl0]; [by apply elem_of_nil in Hin|].
    destruct Hcase as [-> _]. simpl in Hin.
    apply elem_of_cons in Hin as [->|Hin]; [right; simpl; by left|by left].
  - intros x Hx Hle. destruct fl as [|e fl0].
    + destruct Hcase as [-> Hsize]. rewrite Hsize in Hle.
      destruct (decide (x = size p + 1)) as [->|Hne];
        [right; right; simpl; by left|left; lia].
    + destruct Hcase as (_ & Hsize & _). left. by rewrite <- Hsize.
Qed.

Lemma covered_pop p hs i h h' p' :
  wf p hs → covered p hs → hs !! i = Some h →
  pop h p = Done h' p' → covered p' (<[i := h']> hs).
Proof.
  intros ([fl Hfl] & Hlive & Hsep) Hcov Hi Hpop.
  destruct (decide (h = end_)) as [->|Hh]; [done|].
  destruct (Hlive i h Hi) as [[l Hl] Hsf].
  destruct (chain_cons_inv _ _ _ Hh Hl) as (v & nx & l0 & -> & Hn & Hl0).
  assert (Hhfl : h ∉ fl.*1) by (apply (Hsf _ _ Hl Hfl); simpl; by left).
  destruct (pop_spec p h v l0 fl Hl Hfl Hhfl)
    as (h1 & p1 & Hpop1 & Hc' & Hfl' & Hframe & Hsize).
  rewrite Hpop in Hpop1. injection Hpop1 as <- <-.
  apply (covered_replace p p' hs i h h' fl ((h, v) :: fl)
           ((h, v) :: l0) l0); try done.
  - intros k hk lk Hk Hhk Hlk. eapply chain_frame_one; [done..|].
    intros Hin. apply (Hsep k i hk h Hk Hhk Hi lk _ Hlk Hl h Hin).
    simpl. by left.
  - intros x [Hin|[->|Hin]%elem_of_cons];
      [left; simpl; by right|left; simpl; by left|by right].
  - intros x Hx Hle. left. by rewrite <- Hsize.
Qed.

Lemma covered_free_stack this fuel p hs i h h' p' :
  wf p hs → covered p hs → hs !! i = Some h →
  free_stack this fuel h p = Done h' p' → covered p' (<[i := h']> hs).
Proof.
  intros Hwf Hcov Hi Hfree. pose proof Hwf as ([fl Hfl] & Hlive & Hsep).
  destruct (Hlive i h Hi) as [[l Hl] Hsf].
  destruct (decide (h = end_)) as [->|Hh].
  { injection Hfree as <- <-. by rewrite list_insert_id. }
  destruct (decide (length l ≤ fuel)%nat) as [Hfuel|Hfuel]; last first.
  { exfalso. revert Hfree. unfold free_stack, empty.
    rewrite bool_decide_eq_false_2 by done.
    rewrite bind_OutOfFuel; [done|].
    apply (get_last_short this p h l fuel); [done|lia]. }
  destruct (chain_last_exists p h l Hl Hh) as (e & Hlast & He).
  rewrite (free_stack_run this fuel p h l e Hh Hl Hlast Hfuel) in Hfree.
  injection Hfree as <- <-.
  assert (Hel : e.1 ∈ l.*1).
  { apply list_elem_of_fmap_2. by apply last_Some_elem_of. }
  eapply (covered_replace p _ hs i h end_ fl (l ++ fl) l []); try done.
  - simpl.
    eapply (chain_frame (upd p e.1 (mk_node e.2 (free_nodes p)))); [done|].
    apply chain_splice; [done..|]. by apply (Hsf l fl Hl Hfl).
  - constructor.
  - intros k hk lk Hk Hhk Hlk. eapply (chain_frame_one p _ e.1); [|done|].
    + intros x Hx Hne. rewrite nd_with_free. by apply nd_upd_ne.
    + intros Hin. by apply (Hsep k i hk h Hk Hhk Hi lk l Hlk Hl e.1 Hin).
  - intros x Hin. left. rewrite fmap_app, elem_of_app. tauto.
  - intros x Hx Hle. left.
    change (size (with_free ?q _)) with (size q) in Hle.
    by rewrite size_upd in Hle.
Qed.

Lemma covered_exec this o p hs hs' p' :
  wf p hs → covered p hs → exec this o hs p = Done hs' p' → covered p' hs'.
Proof.
  intros Hwf Hcov. destruct o as [|i v|i|i fuel|n]; simpl.
  - intros [= <- <-] x Hx Hle.
    destruct (Hcov x Hx Hle) as [?|(j & hj & lj & Hj & ?)]; [by left|].
    right. exists j, hj, lj. split; [by apply lookup_app_l_Some|done].
  - destruct (hs !! i) as [h|] eqn:Hi; [|by intros [= <- <-]].
    destruct (push v h p) as [h' p1|msg p1| |] eqn:Hrun;
      unfold mbind, M_bind; rewrite Hrun; try done.
    intros [= <- <-]. by eapply covered_push.
  - destruct (hs !! i) as [h|] eqn:Hi; [|by intros [= <- <-]].
    destruct (pop h p) as [h' p1|msg p1| |] eqn:Hrun;
      unfold mbind, M_bind; rewrite Hrun; try done.
    intros [= <- <-]. by eapply covered_pop.
  - destruct (hs !! i) as [h|] eqn:Hi; [|by intros [= <- <-]].
    destruct (free_stack this fuel h p) as [h' p1|msg p1| |] eqn:Hrun;
      unfold mbind, M_bind; rewrite Hrun; try done.
    intros [= <- <-]. by eapply covered_free_stack.
  - unfold mbind, M_bind. simpl. intros [= <- <-] x Hx Hle.
    assert (Hsame : ∀ h l, chain p h l →
              chain (mk_pool (vec_reserve n (pool p)) (free_nodes p)) h l).
    { intros h l. apply chain_frame. intros y _. apply nd_reserve. }
    assert (Hsize : size (mk_pool (vec_reserve n (pool p)) (free_nodes p))
                    = size p).
    { unfold size, vec_size, vec_reserve. simpl.
      by destruct (cap (pool p) <? n). }
    rewrite Hsize in Hle.
    destruct (Hcov x Hx Hle) as [(fl & Hfl & ?)|(j & hj & lj & Hj & Hlj & ?)].
    + left. exists fl. split; [by apply Hsame|done].
    + right. exists j, hj, lj. split_and!; [done|by apply Hsame|done].
Qed.

Lemma covered_ctor g n : covered (T:=T) (stack_pool_ctor g n) [].
Proof.
  intros x Hx Hle. exfalso. revert Hle.
  unfold size, stack_pool_ctor, vec_size, vec_reserve. simpl.
  unfold end_ in Hx. destruct (0 <? n); simpl; lia.
Qed.

(** X19: no node is lost and none is shared.  In every state a client
    reaches from a fresh pool, each node of the vector belongs to exactly
    one list: either it is on the free list and in no stack the client
    holds, or it is in the stack of exactly one variable and not on the
    free list. *)
Theorem every_node_has_one_owner (this : addr) (g : N → N) (n : size_type)
    (ops : list op) (hs : list stack_type) (p : stack_pool) :
  exec_all this ops [] (stack_pool_ctor g n) = Done hs p →
  ∃ fl,
    chain p (free_nodes p) fl ∧
    ∀ x, x ≠ end_ → x ≤ size p →
      (x ∈ fl.*1 ∧
       ∀ i h l, hs !! i = Some h → chain p h l → x ∉ l.*1) ∨
      ((x ∉ fl.*1) ∧
       ∃ i h l, hs !! i = Some h ∧ chain p h l ∧ x ∈ l.*1 ∧
         ∀ j h' l', j ≠ i → hs !! j = Some h' → chain p h' l' → x ∉ l'.*1).
Proof.
  intros Hrun.
  assert (wf p hs ∧ covered p hs) as [Hwf Hcov].
  { revert Hrun. generalize (wf_ctor g n) (covered_ctor g n).
    generalize (stack_pool_ctor (T:=T) g n) (@nil stack_type).
    induction ops as [|o ops IH]; intros q ks Hwf Hcov; simpl.
    - by intros [= <- <-].
    - destruct (exec this o ks q) as [ks1 q1|msg q1| |] eqn:Hstep;
        unfold mbind, M_bind; rewrite Hstep; try done.
      apply IH; [by eapply wf_exec|by eapply covered_exec]. }
  destruct Hwf as ([fl Hfl] & Hlive & Hsep). exists fl. split; [done|].
  intros x Hx Hle.
  destruct (Hcov x Hx Hle) as [(fl0 & Hfl0 & Hin)|(i & h & l & Hi & Hl & Hin)].
  - rewrite (chain_det _ _ _ _ Hfl0 Hfl) in Hin. left. split; [done|].
    intros i h l Hi Hl Hxl. destruct (Hlive i h Hi) as [_ Hsf].
    by apply (Hsf l fl Hl Hfl x).
  - right. destruct (Hlive i h Hi) as [_ Hsf].
    split; [by apply (Hsf l fl Hl Hfl x)|].
    exists i, h, l. split_and!; try done.
    intros j h' l' Hne Hj Hl'.
    by apply (Hsep i j h h' ltac:(done) Hi Hj l l' Hl Hl' x).
Qed.

(** ** Pushes followed by as many pops *)

Lemma chain_head p h l : chain p h l → h = default end_ (head l.*1).
Proof. by destruct 1. Qed.

Lemma pushes_onto_chain vs : ∀ acc p l fl,
  chain p (free_nodes p) fl →
  chain p (same_stack acc) l →
  (∀ x, x ∈ l.*1 → x ∉ fl.*1) →
  ∃ hs p' l',
    pushes vs same_stack acc p = Done (acc ++ hs) p' ∧
    chain p' (same_stack (acc ++ hs)) (l' ++ l) ∧
    length l' = length vs ∧
    l'.*1 = reverse hs ∧
    l'.*2 = reverse vs ∧
    chain p' (free_nodes p') (drop (length vs) fl) ∧
    (∀ x, x ∈ (l' ++ l).*1 → x ∉ (drop (length vs) fl).*1).
Proof.
  induction vs as [|v vs IH]; intros acc p l fl Hfl Hl Hdisj.
  - exists [], p, []. rewrite app_nil_r, drop_0. done.
  - destruct (push_spec v (same_stack acc) p fl Hfl)
      as (h & p1 & Hpush & Hh & Hnode & Hfl1 & Hnotin & _ & _).
    destruct (push_keeps_chain v _ p fl h p1 _ l Hfl Hpush Hl Hdisj)
      as [Hl1 Hhl].
    assert (Hc1 : chain p1 (same_stack (acc ++ [h])) ((h, v) :: l)).
    { rewrite same_stack_snoc. by econstructor. }
    destruct (IH (acc ++ [h]) p1 _ _ Hfl1 Hc1)
      as (hs & p' & l' & Hrun & Hc & Hlen & H1 & H2 & Hfl' & Hdisj').
    { intros x [->|Hx]%elem_of_cons; [done|].
      intros Hin%elem_of_tail'. by apply (Hdisj x). }
    exists (h :: hs), p', (l' ++ [(h, v)]).
    simpl. rewrite (bind_Done _ _ _ _ _ Hpush).
    rewrite <- !app_assoc in *. simpl in *.
    assert (Hdrop : drop (length vs) (tail fl) = drop (S (length vs)) fl)
      by (destruct fl; [by destruct (length vs)|done]).
    rewrite Hdrop in Hfl', Hdisj'.
    split_and!; try done.
    + rewrite length_app, Hlen. simpl. lia.
    + by rewrite fmap_app, reverse_cons, H1.
    + by rewrite fmap_app, reverse_cons, H2.
Qed.

Lemma pops_chain : ∀ l' l h p fl,
  chain p h (l' ++ l) →
  chain p (free_nodes p) fl →
  (∀ x, x ∈ (l' ++ l).*1 → x ∉ fl.*1) →
  ∃ h' p',
    pops (length l') h p = Done h' p' ∧
    chain p' h' l ∧
    chain p' (free_nodes p') (reverse l' ++ fl) ∧
    size p' = size p ∧
    capacity p' = capacity p.
Proof.
  induction l' as [|[x v] l' IH]; intros l h p fl Hc Hfl Hdisj.
  - exists h, p. by rewrite reverse_nil.
  - simpl in Hc. pose proof (chain_NoDup _ _ _ Hc) as Hnd.
    simpl in Hnd. apply NoDup_cons in Hnd as [Hxl _].
    pose proof (chain_head _ _ _ Hc) as Hhx. simpl in Hhx. subst h.
    assert (Hxfl : x ∉ fl.*1) by (apply Hdisj; simpl; by left).
    inversion Hc as [|? ? nx ? Hx Hn _]; subst.
    destruct (pop_spec p x v (l' ++ l) fl Hc Hfl Hxfl)
      as (h1 & p1 & Hpop & Hc1 & Hfl1 & _ & Hsize).
    assert (Hcap : capacity p1 = capacity p).
    { rewrite (pop_run _ _ _ Hx Hn) in Hpop. by injection Hpop as <- <-. }
    destruct (IH l h1 p1 ((x, v) :: fl) Hc1 Hfl1)
      as (h' & p' & Hrun & Hl & Hfl' & Hsize' & Hcap').
    { intros y Hy [->|Hin]%elem_of_cons; [done|].
      apply (Hdisj y); [simpl; by right|done]. }
    exists h', p'. simpl. rewrite (bind_Done _ _ _ _ _ Hpop).
    rewrite reverse_cons, <- app_assoc. simpl.
    split_and!; [done|done|done|congruence|congruence].
Qed.

(** X20: as many pops as pushes give the stack back.  Starting from a
    stack with head [h] and chain [l] that shares no node with the free
    list, pushing the values [vs] and then popping [length vs] times
    returns [h]; the stack has its old chain and its old values, the
    size of the vector is what it was after the pushes, and the nodes
    that were pushed head the free list in the order in which they were
    handed out, so the same pushes would get the same handles again. *)
Theorem pushes_then_pops_restore_stack (this : addr) (vs : list T)
    (p : stack_pool) (h : stack_type) (l fl : list (stack_type * T)) :
  chain p (free_nodes p) fl →
  chain p h l →
  (∀ x, x ∈ l.*1 → x ∉ fl.*1) →
  ∃ hs p1 p2 fl2,
    pushes vs same_stack [h] p = Done (h :: hs) p1 ∧
    length hs = length vs ∧
    pops (length vs) (same_stack (h :: hs)) p1 = Done h p2 ∧
    chain p2 h l ∧
    (∀ fuel, (length l < fuel)%nat →
       traverse this fuel h p2 = Done l.*2 p2) ∧
    size p2 = size p1 ∧
    chain p2 (free_nodes p2) fl2 ∧
    take (length vs) fl2.*1 = hs.
Proof.
  intros Hfl Hl Hdisj.
  destruct (pushes_onto_chain vs [h] p l fl Hfl Hl Hdisj)
    as (hs & p1 & l' & Hrun & Hc & Hlen & H1 & H2 & Hfl1 & Hdisj1).
  destruct (pops_chain l' l _ p1 _ Hc Hfl1 Hdisj1)
    as (h' & p2 & Hpops & Hl2 & Hfl2 & Hsize & _).
  assert (h' = h) as ->.
  { by rewrite (chain_head _ _ _ Hl2), (chain_head _ _ _ Hl). }
  assert (Hhs : length hs = length vs).
  { rewrite <- (length_reverse hs), <- H1, length_fmap. done. }
  exists hs, p1, p2, (reverse l' ++ drop (length vs) fl).
  rewrite Hlen in Hpops. split_and!; try done.
  - intros fuel Hfuel. by apply traverse_chain.
  - rewrite fmap_app, fmap_reverse, H1, reverse_involutive.
    rewrite take_app_le by lia. apply firstn_all2. lia.
Qed.

End properties.

(** * Concrete runs *)

(** The scenario of the specification: two pushes, a pop, a free_stack
    and a push that reuses the freed node. *)
Example scenario_push_pop_free :
  (h1 ← push 10%nat new_stack ;
   h2 ← push 20%nat h1 ;
   l2 ← traverse 0%nat 3 h2 ;
   h ← pop h2 ;
   l1 ← traverse 0%nat 2 h ;
   e ← free_stack 0%nat 1 h ;
   h3 ← push 30%nat e ;
   mret (h1, h2, l2, h, l1, e, h3)) (stack_pool_ctor doubling 0)
  = Done (1, 2, [20%nat; 10%nat], 1, [10%nat], 0, 1)
         (mk_pool (mk_vector [mk_node 30%nat 0; mk_node 20%nat 0] 2 doubling)
                  2).
Proof. reflexivity. Qed.

(** C6, counterexample.  The sentinel is what [new_stack] returns, and
    also what [free_stack] returns; [next] of it is an out-of-bounds
    access.  And the handle 1, returned by [push], is stale once its
    stack is freed: freeing it a second time makes node 1 its own
    successor, and from then on the walk of [free_stack] on the handle 1
    never ends, whatever fuel it is given. *)
Lemma totality_fails_on_sentinel_and_stale_handle :
  run_calls max_size_16 doubling 0 0%nat [CallNewStack]
  = Done [new_stack] (stack_pool_ctor (T:=nat) doubling 0) ∧
  next new_stack (stack_pool_ctor (T:=nat) doubling 0) = Undefined ∧
  run_calls max_size_16 doubling 0 0%nat
    [CallNewStack; CallPush 0 7%nat; CallFreeStack 1 1; CallFreeStack 1 1]
  = Done [new_stack; 1; end_; end_] pool_self_loop ∧
  next end_ pool_self_loop = Undefined ∧
  ∀ fuel, free_stack 0%nat fuel 1 pool_self_loop = OutOfFuel.
Proof.
  split_and!; try (vm_compute; reflexivity).
  intros fuel. unfold free_stack, empty.
  rewrite bool_decide_eq_false_2 by done.
  apply bind_OutOfFuel. unfold get_last, begin.
  apply (get_last_loop_cycle [1]); [|apply list_elem_of_here].
  intros x ->%list_elem_of_singleton. split; [done|].
  eexists. split; [reflexivity|]. apply list_elem_of_here.
Qed.

(** C10, counterexample: with 8-bit handles, 255 pushes onto one stack
    of a fresh pool return the handles 1 to 255, and the next push, which
    makes the vector 256 nodes long, returns the sentinel. *)
Lemma push_returns_sentinel_after_255_nodes :
  pushes_at 8 (replicate 255 0%nat) same_stack [] (stack_pool_ctor doubling 0)
  = Done (N.of_nat <$> seq 1 255) pool_255_nodes ∧
  push_at 8 0%nat 255 pool_255_nodes
  = Done end_ (appended pool_255_nodes (mk_node 0%nat 255)) ∧
  empty end_ = true.
Proof. split_and!; vm_compute; reflexivity. Qed.

(** A constructor call beyond [max_size()]. *)
Example construct_beyond_max_size_throws :
  construct (T:=nat) max_size_16 doubling (2 ^ 60)
  = Failed length_error_msg (stack_pool_members doubling).
Proof. vm_compute. reflexivity. Qed.

(** ** Instances of the theorems on concrete pools *)



Lemma freed_nodes_reused_before_growth_witness :
  chain pool_all_free (free_nodes pool_all_free) [(2, 20%nat); (1, 10%nat)] ∧
  size pool_all_free = N.of_nat 2 ∧
  length [(2, 20%nat); (1, 10%nat)] = 2%nat ∧
  (length [7; 8]%nat ≤ 2)%nat ∧
  (∃ hs p',
     pushes [7; 8]%nat same_stack [] pool_all_free = Done hs p' ∧
     hs = [2; 1] ∧
     chain p' (free_nodes p') [] ∧
     capacity p' = capacity pool_all_free ∧
     size p' = size pool_all_free) ∧
  (∀ (q : @stack_pool nat) v h, free_nodes q = end_ →
     ∃ q', push v h q = Done (size q + 1) q' ∧ size q' = size q + 1) ∧
  (∀ (q : @stack_pool nat) v h h' q',
     push v h q = Done h' q' → size q' ≠ size q → free_nodes q = end_).
Proof.
  assert (H1 : chain pool_all_free (free_nodes pool_all_free)
                 [(2, 20%nat); (1, 10%nat)])
    by (apply (chain_of_sound 3); reflexivity).
  assert (H2 : size pool_all_free = N.of_nat 2) by reflexivity.
  split; [exact H1|]. split; [exact H2|].
  split; [reflexivity|]. split; [exact (le_n 2)|].
  exact (freed_nodes_reused_before_growth 2 [7; 8]%nat same_stack
           pool_all_free _ H1 H2 eq_refl (le_n 2)).
Defined.

(** Three values pushed onto stack A and two onto stack B, from a fresh
    pool, give [pool_two_stacks] with heads 3 and 5. *)
Example two_stacks_built_by_pushes :
  exec_all 0%nat
    [NewStack; NewStack; Push 0 1%nat; Push 0 2%nat; Push 0 3%nat;
     Push 1 4%nat; Push 1 5%nat] [] (stack_pool_ctor doubling 0)
  = Done [3; 5] pool_two_stacks.
Proof. reflexivity. Qed.

Lemma free_stack_prepends_chain_witness :
  chain pool_one_free 1 [(1, 10%nat)] ∧
  (length [(1, 10%nat)] ≤ 1)%nat ∧
  (1 = end_ → free_stack 0%nat 1 1 pool_one_free = Done end_ pool_one_free) ∧
  (1 ≠ end_ →
   ∃ e, last [(1, 10%nat)] = Some e ∧
        nd pool_one_free e.1 = Some (mk_node e.2 end_) ∧
        get_last 0%nat 1 1 pool_one_free = Done e.1 pool_one_free ∧
        let p' := with_free (upd pool_one_free e.1
                               (mk_node e.2 (free_nodes pool_one_free))) 1 in
        free_stack 0%nat 1 1 pool_one_free = Done end_ p' ∧
        nd p' e.1 = Some (mk_node e.2 (free_nodes pool_one_free)) ∧
        free_nodes p' = 1 ∧
        (∀ x, x ≠ end_ → x ≠ e.1 → nd p' x = nd pool_one_free x) ∧
        ∀ fl, chain pool_one_free (free_nodes pool_one_free) fl →
              (∀ x, x ∈ [(1, 10%nat)].*1 → x ∉ fl.*1) →
              chain p' (free_nodes p') ([(1, 10%nat)] ++ fl)).
Proof.
  assert (H1 : chain pool_one_free 1 [(1, 10%nat)])
    by (apply (chain_of_sound 2); reflexivity).
  split; [exact H1|]. split; [exact (le_n 1)|].
  exact (free_stack_prepends_chain 0%nat 1 pool_one_free 1 _ H1 (le_n 1)).
Defined.

Lemma free_stack_leaves_other_stack_witness :
  chain pool_two_stacks 3 [(3, 3%nat); (2, 2%nat); (1, 1%nat)] ∧
  chain pool_two_stacks 5 [(5, 5%nat); (4, 4%nat)] ∧
  (∀ x, x ∈ [(3, 3%nat); (2, 2%nat); (1, 1%nat)].*1 →
        x ∉ [(5, 5%nat); (4, 4%nat)].*1) ∧
  ∃ p',
    free_stack 0%nat 3 3 pool_two_stacks = Done end_ p' ∧
    chain p' 5 [(5, 5%nat); (4, 4%nat)] ∧
    ∀ fuel', (2 < fuel')%nat →
      traverse 0%nat fuel' 5 pool_two_stacks
      = Done [5; 4]%nat pool_two_stacks ∧
      traverse 0%nat fuel' 5 p' = Done [5; 4]%nat p'.
Proof.
  assert (H1 : chain pool_two_stacks 3 [(3, 3%nat); (2, 2%nat); (1, 1%nat)])
    by (apply (chain_of_sound 4); reflexivity).
  assert (H2 : chain pool_two_stacks 5 [(5, 5%nat); (4, 4%nat)])
    by (apply (chain_of_sound 3); reflexivity).
  assert (H3 : ∀ x : stack_type,
            x ∈ [(3, 3%nat); (2, 2%nat); (1, 1%nat)].*1 →
            x ∉ [(5, 5%nat); (4, 4%nat)].*1).
  { intros x Hx Hy. simpl in Hx, Hy.
    repeat match goal with
           | H : _ ∈ _ :: _ |- _ => apply elem_of_cons in H as [H|H]
           | H : _ ∈ [] |- _ => by apply elem_of_nil in H
           end; congruence. }
  split; [exact H1|]. split; [exact H2|]. split; [exact H3|].
  exact (free_stack_leaves_other_stack 0%nat 3 pool_two_stacks 3 5 _ _
           H1 H2 H3 (le_n 3)).
Defined.

Lemma held_handles_total_witness :
  exec_all 0%nat [NewStack; Push 0 7%nat] [] (stack_pool_ctor doubling 0)
  = Done [1] pool_one_node ∧
  1 ∈ [1 : stack_type] ∧
  (∀ v, ∃ h' p', push v 1 pool_one_node = Done h' p') ∧
  (∃ fuel, ∀ fuel', (fuel ≤ fuel')%nat →
     ∃ p', free_stack 0%nat fuel' 1 pool_one_node = Done end_ p') ∧
  current (begin 0%nat 1) = 1 ∧
  current (end_iter 0%nat 1) = end_ ∧
  (1 ≠ end_ → ∃ nx, next 1 pool_one_node = Done nx pool_one_node) ∧
  (1 = end_ → size pool_one_node ≤ SIZE_MAX →
   next 1 pool_one_node = Undefined).
Proof.
  assert (H1 : exec_all 0%nat [NewStack; Push 0 7%nat] []
                 (stack_pool_ctor doubling 0) = Done [1] pool_one_node)
    by reflexivity.
  assert (H2 : 1 ∈ [1 : stack_type]) by apply list_elem_of_here.
  split; [exact H1|]. split; [exact H2|].
  exact (held_handles_total_except_next_of_sentinel 0%nat doubling 0
           _ _ _ 1 H1 H2).
Defined.

Lemma produced_handles_total_witness :
  run_calls max_size_16 doubling 0 0%nat
    [CallNewStack; CallPush 0 7%nat; CallNext 1]
  = Done [0; 1; 0] pool_one_node ∧
  1 ∈ ([0; 1; 0] : list stack_type) ∧
  (∀ v, ∃ h' p', push v 1 pool_one_node = Done h' p') ∧
  current (begin 0%nat 1) = 1 ∧
  current (end_iter 0%nat 1) = end_ ∧
  (1 ≠ end_ →
   ∃ nx, next 1 pool_one_node = Done nx pool_one_node ∧
         nx ≤ size pool_one_node) ∧
  (1 = end_ → size pool_one_node ≤ SIZE_MAX →
   next 1 pool_one_node = Undefined) ∧
  (∀ fuel, (∃ p', free_stack 0%nat fuel 1 pool_one_node = Done end_ p') ∨
           free_stack 0%nat fuel 1 pool_one_node = OutOfFuel) ∧
  (∀ h0 l, chain pool_one_node h0 l → 1 = h0 ∨ 1 ∈ l.*1 →
     ∀ fuel, (length l ≤ fuel)%nat →
       ∃ p', free_stack 0%nat fuel 1 pool_one_node = Done end_ p').
Proof.
  assert (H1 : run_calls max_size_16 doubling 0 0%nat
                 [CallNewStack; CallPush 0 7%nat; CallNext 1]
               = Done [0; 1; 0] pool_one_node)
    by (vm_compute; reflexivity).
  assert (H2 : 1 ∈ ([0; 1; 0] : list stack_type))
    by (apply list_elem_of_further, list_elem_of_here).
  split; [exact H1|]. split; [exact H2|].
  exact (produced_handles_total_except_next_of_sentinel max_size_16 0%nat
           doubling 0 _ _ _ 1 H1 H2).
Defined.

(** Assignment across pools: [a] iterates over the pool at address 0 and
    [b] over the pool at address 1.  After [a = b] both have the current
    handle 1 and compare equal, but [*a] is still read in pool 0. *)
Example assign_across_pools :
  let a := begin 0%nat end_ in
  let b := begin 1%nat 1 in
  deref b two_pools = Done 1%nat two_pools ∧
  deref (op_assign a b) two_pools = Done 10%nat two_pools ∧
  op_eq (op_assign a b) b = true.
Proof. split_and!; reflexivity. Qed.

(** ** Instances of the further properties *)

Lemma pop_then_push_overwrites_top_witness :
  1 ≠ end_ ∧
  nd pool_one_free 1 = Some (mk_node 10%nat 0) ∧
  ∃ p1,
    pop 1 pool_one_free = Done 0 p1 ∧
    free_nodes p1 = 1 ∧
    push 30%nat 0 p1 = Done 1 (upd pool_one_free 1 (mk_node 30%nat 0)).
Proof.
  assert (H1 : 1 ≠ end_) by (vm_compute; discriminate).
  assert (H2 : nd pool_one_free 1 = Some (mk_node 10%nat 0)) by reflexivity.
  split; [exact H1|]. split; [exact H2|].
  exact (pop_then_push_overwrites_top 30%nat 1 pool_one_free _ H1 H2).
Defined.

Lemma pop_removes_top_witness :
  chain pool_two_stacks 3 [(3, 3%nat); (2, 2%nat); (1, 1%nat)] ∧
  chain pool_two_stacks (free_nodes pool_two_stacks) [] ∧
  (3 ∉ ([] : list (stack_type * nat)).*1) ∧
  ∃ h' p',
    pop 3 pool_two_stacks = Done h' p' ∧
    chain p' h' [(2, 2%nat); (1, 1%nat)] ∧
    (∀ fuel, (2 < fuel)%nat →
       traverse 0%nat fuel h' p' = Done [2; 1]%nat p') ∧
    nd p' 3 = Some (mk_node 3%nat (free_nodes pool_two_stacks)) ∧
    free_nodes p' = 3 ∧
    chain p' (free_nodes p') [(3, 3%nat)] ∧
    size p' = size pool_two_stacks ∧
    capacity p' = capacity pool_two_stacks.
Proof.
  assert (H1 : chain pool_two_stacks 3 [(3, 3%nat); (2, 2%nat); (1, 1%nat)])
    by (apply (chain_of_sound 4); reflexivity).
  assert (H2 : chain pool_two_stacks (free_nodes pool_two_stacks) [])
    by (apply (chain_of_sound 1); reflexivity).
  assert (H3 : 3 ∉ ([] : list (stack_type * nat)).*1) by apart.
  split; [exact H1|]. split; [exact H2|]. split; [exact H3|].
  exact (pop_removes_top 0%nat pool_two_stacks 3 3%nat _ _ H1 H2 H3).
Defined.

Lemma push_prepends_value_witness :
  chain pool_one_free (free_nodes pool_one_free) [(2, 20%nat)] ∧
  chain pool_one_free 1 [(1, 10%nat)] ∧
  (∀ x, x ∈ [(1, 10%nat)].*1 → x ∉ [(2, 20%nat)].*1) ∧
  ∃ h' p',
    push 9%nat 1 pool_one_free = Done h' p' ∧
    h' = default (size pool_one_free + 1) (head [(2, 20%nat)].*1) ∧
    (h' ∉ [(1, 10%nat)].*1) ∧
    chain p' h' [(h', 9%nat); (1, 10%nat)] ∧
    (∀ fuel, (2 < fuel)%nat →
       traverse 0%nat fuel h' p' = Done [9; 10]%nat p') ∧
    chain p' (free_nodes p') [].
Proof.
  assert (H1 : chain pool_one_free (free_nodes pool_one_free) [(2, 20%nat)])
    by (apply (chain_of_sound 2); reflexivity).
  assert (H2 : chain pool_one_free 1 [(1, 10%nat)])
    by (apply (chain_of_sound 2); reflexivity).
  assert (H3 : ∀ x : stack_type,
            x ∈ [(1, 10%nat)].*1 → x ∉ [(2, 20%nat)].*1) by apart.
  split; [exact H1|]. split; [exact H2|]. split; [exact H3|].
  exact (push_prepends_value 0%nat 9%nat 1 pool_one_free _ _ H1 H2 H3).
Defined.

Lemma push_leaves_other_stack_witness :
  chain pool_one_free (free_nodes pool_one_free) [(2, 20%nat)] ∧
  chain pool_one_free 1 [(1, 10%nat)] ∧
  (∀ x, x ∈ [(1, 10%nat)].*1 → x ∉ [(2, 20%nat)].*1) ∧
  ∃ h' p',
    push 9%nat new_stack pool_one_free = Done h' p' ∧
    chain p' 1 [(1, 10%nat)] ∧
    ∀ fuel, (1 < fuel)%nat →
      traverse 0%nat fuel 1 p' = Done [10%nat] p'.
Proof.
  assert (H1 : chain pool_one_free (free_nodes pool_one_free) [(2, 20%nat)])
    by (apply (chain_of_sound 2); reflexivity).
  assert (H2 : chain pool_one_free 1 [(1, 10%nat)])
    by (apply (chain_of_sound 2); reflexivity).
  assert (H3 : ∀ x : stack_type,
            x ∈ [(1, 10%nat)].*1 → x ∉ [(2, 20%nat)].*1) by apart.
  split; [exact H1|]. split; [exact H2|]. split; [exact H3|].
  exact (push_leaves_other_stack 0%nat 9%nat new_stack 1 pool_one_free
           _ _ H1 H2 H3).
Defined.

Lemma pop_leaves_other_stack_witness :
  3 ≠ end_ ∧
  3 ≤ size pool_two_stacks ∧
  chain pool_two_stacks 5 [(5, 5%nat); (4, 4%nat)] ∧
  (3 ∉ [(5, 5%nat); (4, 4%nat)].*1) ∧
  ∃ h' p',
    pop 3 pool_two_stacks = Done h' p' ∧
    chain p' 5 [(5, 5%nat); (4, 4%nat)] ∧
    ∀ fuel, (2 < fuel)%nat →
      traverse 0%nat fuel 5 p' = Done [5; 4]%nat p'.
Proof.
  assert (H1 : 3 ≠ end_) by (vm_compute; discriminate).
  assert (H2 : 3 ≤ size pool_two_stacks) by (vm_compute; discriminate).
  assert (H3 : chain pool_two_stacks 5 [(5, 5%nat); (4, 4%nat)])
    by (apply (chain_of_sound 3); reflexivity).
  assert (H4 : 3 ∉ [(5, 5%nat); (4, 4%nat)].*1) by apart.
  split; [exact H1|]. split; [exact H2|]. split; [exact H3|].
  split; [exact H4|].
  exact (pop_leaves_other_stack 0%nat 3 5 pool_two_stacks _ H1 H2 H3 H4).
Defined.

Lemma pushes_reuse_in_free_list_order_witness :
  chain pool_all_free (free_nodes pool_all_free) [(2, 20%nat); (1, 10%nat)] ∧
  (length [7; 8]%nat ≤ length [(2, 20%nat); (1, 10%nat)])%nat ∧
  ∃ p',
    pushes [7; 8]%nat same_stack [] pool_all_free = Done [2; 1] p' ∧
    chain p' (free_nodes p') [] ∧
    size p' = size pool_all_free ∧
    capacity p' = capacity pool_all_free.
Proof.
  assert (H1 : chain pool_all_free (free_nodes pool_all_free)
                 [(2, 20%nat); (1, 10%nat)])
    by (apply (chain_of_sound 3); reflexivity).
  split; [exact H1|]. split; [exact (le_n 2)|].
  exact (pushes_reuse_in_free_list_order [7; 8]%nat same_stack
           pool_all_free _ H1 (le_n 2)).
Defined.

Lemma free_stack_then_pushes_reuse_witness :
  1 ≠ end_ ∧
  chain pool_one_free 1 [(1, 10%nat)] ∧
  chain pool_one_free (free_nodes pool_one_free) [(2, 20%nat)] ∧
  (∀ x, x ∈ [(1, 10%nat)].*1 → x ∉ [(2, 20%nat)].*1) ∧
  ∃ p1 p2,
    free_stack 0%nat 1 1 pool_one_free = Done end_ p1 ∧
    pushes [7%nat] same_stack [] p1 = Done [1] p2 ∧
    size p2 = size pool_one_free ∧
    capacity p2 = capacity pool_one_free.
Proof.
  assert (H1 : 1 ≠ end_) by (vm_compute; discriminate).
  assert (H2 : chain pool_one_free 1 [(1, 10%nat)])
    by (apply (chain_of_sound 2); reflexivity).
  assert (H3 : chain pool_one_free (free_nodes pool_one_free) [(2, 20%nat)])
    by (apply (chain_of_sound 2); reflexivity).
  assert (H4 : ∀ x : stack_type,
            x ∈ [(1, 10%nat)].*1 → x ∉ [(2, 20%nat)].*1) by apart.
  split; [exact H1|]. split; [exact H2|]. split; [exact H3|].
  split; [exact H4|].
  exact (free_stack_then_pushes_reuse 0%nat 1 [7%nat] same_stack
           pool_one_free 1 _ _ H1 H2 H3 H4 (le_n 1) (le_n 1)).
Defined.

Lemma fresh_pool_pushes_sequential_witness :
  N.of_nat (length [7; 8; 9]%nat) ≤ 4 ∧
  4 ≤ max_size_16 ∧
  ∃ p0 p',
    construct max_size_16 doubling 4 = Done () p0 ∧
    size p0 = 0 ∧
    free_nodes p0 = end_ ∧
    4 ≤ capacity p0 ∧
    pushes [7; 8; 9]%nat same_stack [] p0 = Done [1; 2; 3] p' ∧
    size p' = 3 ∧
    free_nodes p' = end_ ∧
    capacity p' = capacity p0.
Proof.
  assert (H1 : N.of_nat (length [7; 8; 9]%nat) ≤ 4)
    by (vm_compute; discriminate).
  assert (H2 : 4 ≤ max_size_16) by (vm_compute; discriminate).
  split; [exact H1|]. split; [exact H2|].
  exact (proj2 (fresh_pool_pushes_sequential max_size_16 doubling 4
                  [7; 8; 9]%nat same_stack H1) H2).
Defined.


(** [reserve] within [max_size()] and beyond it, and the pushes after
    the first. *)
Example reserve_within_and_beyond_max_size :
  (reserve_checked max_size_16 10 ;; pushes [7; 8]%nat same_stack [])
    pool_two_stacks
  = Done [6; 7]
      (mk_pool (mk_vector [mk_node 1%nat 0; mk_node 2%nat 1; mk_node 3%nat 2;
                           mk_node 4%nat 0; mk_node 5%nat 4;
                           mk_node 7%nat 0; mk_node 8%nat 6] 10 doubling) 0) ∧
  reserve_checked max_size_16 (2 ^ 60) pool_two_stacks
  = Failed length_error_msg pool_two_stacks.
Proof. split; vm_compute; reflexivity. Qed.

(** A run of the client ending in each of the four ways. *)
Example disciplined_runs_end_four_ways :
  run_client max_size_16 doubling 0 0%nat [NewStack; Push 0 7%nat]
  = Done [1] pool_one_node ∧
  run_client max_size_16 doubling 0 0%nat [NewStack; Push 0 7%nat; Pop 0; Pop 0]
  = Failed pop_msg (with_free pool_one_node 1) ∧
  run_client max_size_16 doubling 0 0%nat
    [NewStack; Push 0 7%nat; Reserve (2 ^ 60)]
  = Failed length_error_msg pool_one_node ∧
  run_client max_size_16 doubling 0 0%nat
    [NewStack; Push 0 7%nat; FreeStack 0 0]
  = OutOfFuel.
Proof. split_and!; vm_compute; reflexivity. Qed.

Lemma reachable_pool_invariant_witness :
  exec_all 0%nat [NewStack; Push 0 7%nat] [] (stack_pool_ctor doubling 0)
  = Done [1] pool_one_node ∧
  ∃ fl,
    chain pool_one_node (free_nodes pool_one_node) fl ∧
    ∀ i h, [1 : stack_type] !! i = Some h →
      ∃ l, chain pool_one_node h l ∧
           (∀ x, x ∈ l.*1 → x ∉ fl.*1) ∧
           ∀ j h' l', j ≠ i → [1 : stack_type] !! j = Some h' →
                      chain pool_one_node h' l' →
                      ∀ x, x ∈ l.*1 → x ∉ l'.*1.
Proof.
  assert (H1 : exec_all 0%nat [NewStack; Push 0 7%nat] []
                 (stack_pool_ctor doubling 0) = Done [1] pool_one_node)
    by reflexivity.
  split; [exact H1|].
  exact (reachable_pool_invariant 0%nat doubling 0 _ _ _ H1).
Defined.

Lemma storage_never_shrinks_witness :
  exec_all 0%nat [Push 0 7%nat] [new_stack] (stack_pool_ctor doubling 0)
  = Done [1] pool_one_node ∧
  size (stack_pool_ctor (T:=nat) doubling 0) ≤ size pool_one_node
  ≤ size (stack_pool_ctor (T:=nat) doubling 0) + N.of_nat 1 ∧
  ∀ x n, x ≠ end_ → nd (stack_pool_ctor (T:=nat) doubling 0) x = Some n →
         is_Some (nd pool_one_node x).
Proof.
  assert (H1 : exec_all 0%nat [Push 0 7%nat] [new_stack]
                 (stack_pool_ctor doubling 0) = Done [1] pool_one_node)
    by reflexivity.
  split; [exact H1|].
  exact (storage_never_shrinks 0%nat _ _ _ _ _ H1).
Defined.

Lemma value_write_then_read_witness :
  1 ≠ end_ ∧
  1 ≤ size pool_one_free ∧
  ∃ n p',
    nd pool_one_free 1 = Some n ∧
    set_value 1 99%nat pool_one_free = Done () p' ∧
    value 1 p' = Done 99%nat p' ∧
    next 1 p' = Done (node_next n) p' ∧
    free_nodes p' = free_nodes pool_one_free ∧
    (∀ x, x ≠ end_ → x ≠ 1 → nd p' x = nd pool_one_free x) ∧
    ∀ a l, chain pool_one_free a l →
      let l' := (λ e, if decide (e.1 = 1) then (1, 99%nat) else e) <$> l in
      chain p' a l' ∧ l'.*1 = l.*1 ∧
      ∀ fuel, (length l < fuel)%nat →
        traverse 0%nat fuel a p' = Done l'.*2 p'.
Proof.
  assert (H1 : 1 ≠ end_) by (vm_compute; discriminate).
  assert (H2 : 1 ≤ size pool_one_free) by (vm_compute; discriminate).
  split; [exact H1|]. split; [exact H2|].
  exact (value_write_then_read 0%nat 1 99%nat pool_one_free H1 H2).
Defined.

Lemma advance_reaches_end_witness :
  chain pool_two_stacks 3 [(3, 3%nat); (2, 2%nat); (1, 1%nat)] ∧
  advance 3 (begin 0%nat 3) pool_two_stacks
  = Done (end_iter 0%nat 3) pool_two_stacks ∧
  ∀ k x, [(3, 3%nat); (2, 2%nat); (1, 1%nat)].*1 !! k = Some x →
    advance k (begin 0%nat 3) pool_two_stacks
    = Done (begin 0%nat x) pool_two_stacks ∧
    op_neq (begin 0%nat x) (end_iter 0%nat 3) = true.
Proof.
  assert (H1 : chain pool_two_stacks 3 [(3, 3%nat); (2, 2%nat); (1, 1%nat)])
    by (apply (chain_of_sound 4); reflexivity).
  split; [exact H1|].
  exact (advance_reaches_end_after_length 0%nat pool_two_stacks 3 _ H1).
Defined.

Lemma double_free_stack_witness :
  1 ≠ end_ ∧
  chain pool_one_free 1 [(1, 10%nat)] ∧
  chain pool_one_free (free_nodes pool_one_free) [(2, 20%nat)] ∧
  (∀ x, x ∈ [(1, 10%nat)].*1 → x ∉ [(2, 20%nat)].*1) ∧
  ∃ p1 p2,
    free_stack 0%nat 1 1 pool_one_free = Done end_ p1 ∧
    free_stack 0%nat 2 1 p1 = Done end_ p2 ∧
    free_nodes p2 = 1 ∧
    (∀ fuel, get_last 0%nat fuel (free_nodes p2) p2 = OutOfFuel) ∧
    ¬ ∃ m, chain p2 (free_nodes p2) m.
Proof.
  assert (H1 : 1 ≠ end_) by (vm_compute; discriminate).
  assert (H2 : chain pool_one_free 1 [(1, 10%nat)])
    by (apply (chain_of_sound 2); reflexivity).
  assert (H3 : chain pool_one_free (free_nodes pool_one_free) [(2, 20%nat)])
    by (apply (chain_of_sound 2); reflexivity).
  assert (H4 : ∀ x : stack_type,
            x ∈ [(1, 10%nat)].*1 → x ∉ [(2, 20%nat)].*1) by apart.
  split; [exact H1|]. split; [exact H2|]. split; [exact H3|].
  split; [exact H4|].
  exact (double_free_stack_makes_a_cycle 0%nat 1 2 pool_one_free 1 _ _
           H1 H2 H3 H4 (le_n 1) (le_n 2)).
Defined.

Lemma every_node_has_one_owner_witness :
  exec_all 0%nat [NewStack; Push 0 7%nat] [] (stack_pool_ctor doubling 0)
  = Done [1] pool_one_node ∧
  ∃ fl,
    chain pool_one_node (free_nodes pool_one_node) fl ∧
    ∀ x, x ≠ end_ → x ≤ size pool_one_node →
      (x ∈ fl.*1 ∧
       ∀ i h l, [1 : stack_type] !! i = Some h →
                chain pool_one_node h l → x ∉ l.*1) ∨
      ((x ∉ fl.*1) ∧
       ∃ i h l, [1 : stack_type] !! i = Some h ∧
         chain pool_one_node h l ∧ x ∈ l.*1 ∧
         ∀ j h' l', j ≠ i → [1 : stack_type] !! j = Some h' →
                    chain pool_one_node h' l' → x ∉ l'.*1).
Proof.
  assert (H1 : exec_all 0%nat [NewStack; Push 0 7%nat] []
                 (stack_pool_ctor doubling 0) = Done [1] pool_one_node)
    by reflexivity.
  split; [exact H1|].
  exact (every_node_has_one_owner 0%nat doubling 0 _ _ _ H1).
Defined.

Lemma pushes_then_pops_witness :
  chain pool_one_free (free_nodes pool_one_free) [(2, 20%nat)] ∧
  chain pool_one_free 1 [(1, 10%nat)] ∧
  (∀ x, x ∈ [(1, 10%nat)].*1 → x ∉ [(2, 20%nat)].*1) ∧
  ∃ hs p1 p2 fl2,
    pushes [7; 8]%nat same_stack [1] pool_one_free = Done (1 :: hs) p1 ∧
    length hs = 2%nat ∧
    pops 2 (same_stack (1 :: hs)) p1 = Done 1 p2 ∧
    chain p2 1 [(1, 10%nat)] ∧
    (∀ fuel, (1 < fuel)%nat →
       traverse 0%nat fuel 1 p2 = Done [10%nat] p2) ∧
    size p2 = size p1 ∧
    chain p2 (free_nodes p2) fl2 ∧
    take 2 fl2.*1 = hs.
Proof.
  assert (H1 : chain pool_one_free (free_nodes pool_one_free) [(2, 20%nat)])
    by (apply (chain_of_sound 2); reflexivity).
  assert (H2 : chain pool_one_free 1 [(1, 10%nat)])
    by (apply (chain_of_sound 2); reflexivity).
  assert (H3 : ∀ x : stack_type,
            x ∈ [(1, 10%nat)].*1 → x ∉ [(2, 20%nat)].*1) by apart.
  split; [exact H1|]. split; [exact H2|]. split; [exact H3|].
  exact (pushes_then_pops_restore_stack 0%nat [7; 8]%nat pool_one_free 1
           _ _ H1 H2 H3).
Defined.
